(** * pedarProbe: plantar-pressure ingestion and foot heat maps

    A shallow embedding of [pedar.py] (recording tables, the subject tree and
    the spreadsheet ingestion loop) and of [pedarProbe/export.py] (the foot
    heat map and its arithmetic), followed by the properties of the
    specification that are settled against them. *)

From Stdlib Require Import ZArith QArith Lia.
From Stdlib Require Import Strings.String Strings.Ascii.
From stdpp Require Import gmap strings pretty list.

Local Open Scope Z_scope.

(* ===================================================================== *)
(** * Python run-time notions shared by both source files *)
(* ===================================================================== *)

Module Py.

(** The exceptions the modelled code can meet. *)
Inductive exn : Type :=
| KeyError
| IndexError
| ValueError
| TypeError
| AttributeError
| IOError.

(** Observable effects, in program order: a line written by [print], a
    recording file handed to [pd.read_csv], a progress bar refresh. *)
Inductive event : Type :=
| EvPrint (line : string)
| EvLoad (path : string)
| EvProgress (done total : nat).

(** ** The fragment of [re] that the patterns of [pedar.py] use

    A pattern is a sequence of items: one character of a class, a greedy
    repetition of a class, an anchor, a one-character look-around or a
    group of literal alternatives. *)
Inductive item : Type :=
| One (c : ascii → bool)
| Star (c : ascii → bool)
| Plus (c : ascii → bool)
| Bol
| Eol
| Behind (c : ascii → bool)
| Ahead (c : ascii → bool)
| Alt (alts : list string).

Definition pattern := list item.

Definition chars (s : string) : list ascii := list_ascii_of_string s.
Definition text (l : list ascii) : string := string_of_list_ascii l.

Definition is_char (a : ascii) : ascii → bool := Ascii.eqb a.
Definition in_range (lo hi : ascii) (x : ascii) : bool :=
  ((nat_of_ascii lo <=? nat_of_ascii x)%nat
   && (nat_of_ascii x <=? nat_of_ascii hi)%nat)%bool.
Definition digit : ascii → bool := in_range "0" "9".
Definition either (c d : ascii → bool) (x : ascii) : bool := (c x || d x)%bool.
Definition except (c : ascii → bool) (x : ascii) : bool := negb (c x).

Fixpoint starts_with (lit s : list ascii) : option (list ascii) :=
  match lit, s with
  | [], _ => Some s
  | a :: lit', x :: s' => if Ascii.eqb a x then starts_with lit' s' else None
  | _ :: _, [] => None
  end.

(** A greedy repetition of the class [c] followed by the continuation
    [k]: take one more character first, give it back when [k] fails. *)
Definition greedy (c : ascii → bool)
    (k : option ascii → list ascii → option nat) :
    option ascii → list ascii → option nat :=
  fix star (prev : option ascii) (s : list ascii) : option nat :=
    match s with
    | x :: s' =>
        if c x then
          match star (Some x) s' with
          | Some n => Some (S n)
          | None => k prev s
          end
        else k prev s
    | [] => k prev s
    end.

(** A group of literal alternatives followed by [k]: left to right, the
    next alternative is tried when the rest of the pattern fails. *)
Definition alternatives (k : option ascii → list ascii → option nat)
    (prev : option ascii) (s : list ascii) : list string → option nat :=
  fix alt (alts : list string) : option nat :=
    match alts with
    | [] => None
    | a :: alts' =>
        match starts_with (chars a) s with
        | Some s' =>
            match k (from_option Some prev (last (chars a))) s' with
            | Some n => Some (length (chars a) + n)%nat
            | None => alt alts'
            end
        | None => alt alts'
        end
    end.

(** [match_at p prev s]: the length of the match of [p] at the head of [s],
    as the backtracking matcher finds it; [prev] is the character before
    the position, [None] at the start of the subject. [$] holds at the end
    of the subject and before a final line feed. *)
Fixpoint match_at (p : pattern) : option ascii → list ascii → option nat :=
  match p with
  | [] => λ _ _, Some O
  | One c :: p' => λ _ s,
      match s with
      | x :: s' => if c x then S <$> match_at p' (Some x) s' else None
      | [] => None
      end
  | Star c :: p' => greedy c (match_at p')
  | Plus c :: p' => λ _ s,
      match s with
      | x :: s' =>
          if c x then S <$> greedy c (match_at p') (Some x) s' else None
      | [] => None
      end
  | Bol :: p' => λ prev s,
      match prev with None => match_at p' prev s | Some _ => None end
  | Eol :: p' => λ prev s,
      match s with
      | [] => match_at p' prev s
      | [x] => if Ascii.eqb x "010" then match_at p' prev s else None
      | _ => None
      end
  | Behind c :: p' => λ prev s,
      match prev with
      | Some x => if c x then match_at p' prev s else None
      | None => None
      end
  | Ahead c :: p' => λ prev s,
      match s with
      | x :: _ => if c x then match_at p' prev s else None
      | [] => None
      end
  | Alt alts :: p' => λ prev s, alternatives (match_at p') prev s alts
  end.

(** [re.match(p, s)]: a match at the start of the subject only;
    [.group()] is the matched text. *)
Definition re_match (p : pattern) (s : string) : option string :=
  n ← match_at p None (chars s); Some (text (take n (chars s))).

(** [re.search(p, s)]: the leftmost position with a match. *)
Fixpoint search_from (p : pattern) (prev : option ascii) (s : list ascii) :
    option (list ascii) :=
  match match_at p prev s with
  | Some n => Some (take n s)
  | None =>
      match s with
      | x :: s' => search_from p (Some x) s'
      | [] => None
      end
  end.

Definition re_search (p : pattern) (s : string) : option string :=
  text <$> search_from p None (chars s).

(** ** [float] on text

    The two numeric searches of [add_trail] return runs of digits and dots
    with one more character at an end, so the literals that matter are the
    plain decimal ones: white space around an optional sign, digits with
    at most one dot and at least one digit. Everything else is a
    [ValueError], here [None]. The value is kept as the exact rational
    the literal denotes; a time is only ever compared with other times. *)
Definition is_space (x : ascii) : bool :=
  (in_range "009" "013" x || in_range "028" "032" x)%bool.

Definition digit_value (x : ascii) : Z :=
  Z.of_nat (nat_of_ascii x) - 48.

Fixpoint pow10 (n : nat) : positive :=
  match n with O => 1 | S n' => 10 * pow10 n' end%positive.

(** The digits read so far stand for [num / 10 ^ frac]. *)
Fixpoint decimal (seen_dot seen_digit : bool) (num : Z) (frac : nat)
    (s : list ascii) : option Q :=
  match s with
  | [] => if seen_digit then Some (Qmake num (pow10 frac)) else None
  | x :: s' =>
      if digit x then
        decimal seen_dot true (10 * num + digit_value x)
                (if seen_dot then S frac else frac) s'
      else if (Ascii.eqb x "." && negb seen_dot)%bool then
        decimal true seen_digit num frac s'
      else None
  end.

Fixpoint lstrip (s : list ascii) : list ascii :=
  match s with
  | x :: s' => if is_space x then lstrip s' else s
  | [] => []
  end.

Definition strip (s : list ascii) : list ascii :=
  reverse (lstrip (reverse (lstrip s))).

(** Text made of decimal digits, and text that does not begin with one. *)
Fixpoint all_digits (s : string) : bool :=
  match s with
  | EmptyString => true
  | String c s' => digit c && all_digits s'
  end.

Definition headless (s : string) : Prop :=
  match s with
  | EmptyString => True
  | String c _ => digit c = false
  end.

Definition float (s : string) : option Q :=
  match strip (chars s) with
  | x :: s' =>
      if Ascii.eqb x "+" then decimal false false 0 O s'
      else if Ascii.eqb x "-" then Qopp <$> decimal false false 0 O s'
      else decimal false false 0 O (x :: s')
  | [] => None
  end.

End Py.



Import Py.

(* ===================================================================== *)
(** * The part of pandas that [pedar.py] relies on *)
(* ===================================================================== *)

Module Pandas.

(** Labels of an axis: times (floats, kept as the rationals they are) and
    integer column names. Both are compared with [<=]. *)
Class Label (T : Type) := leb : T → T → bool.
Global Hint Mode Label ! : typeclass_instances.
Global Instance Q_label : Label Q := Qle_bool.
Global Instance Z_label : Label Z := Z.leb.

(** The order that the labels of an axis carry: total and transitive. *)
Class LabelOrder (T : Type) `{Label T} : Prop := {
  leb_total (x y : T) : leb x y = false → leb y x = true;
  leb_trans (x y z : T) : leb x y = true → leb y z = true → leb x z = true
}.

Inductive side : Type := Left | Right.

Section Index.
Context {T : Type} `{Label T}.

Definition ltb (x y : T) : bool := negb (leb y x).
Definition eqb (x y : T) : bool := (leb x y && leb y x)%bool.

Fixpoint is_monotonic_increasing (l : list T) : bool :=
  match l with
  | x :: (y :: _) as l' => (leb x y && is_monotonic_increasing l')%bool
  | _ => true
  end.

Fixpoint is_monotonic_decreasing (l : list T) : bool :=
  match l with
  | x :: (y :: _) as l' => (leb y x && is_monotonic_decreasing l')%bool
  | _ => true
  end.

(** Number of leading labels that satisfy [f]. *)
Fixpoint prefix_length (f : T → bool) (l : list T) : nat :=
  match l with
  | x :: l' => if f x then S (prefix_length f l') else O
  | [] => O
  end.

(** [searchsorted] on an increasing axis: the insertion point before
    (left) or after (right) the labels equal to [x]. *)
Definition searchsorted (l : list T) (x : T) (sd : side) : nat :=
  match sd with
  | Left => prefix_length (λ e, ltb e x) l
  | Right => prefix_length (λ e, leb e x) l
  end.

(** [Index._searchsorted_monotonic]: a decreasing axis is searched in
    reverse with the side flipped; an axis in no order raises. *)
Definition searchsorted_monotonic (l : list T) (x : T) (sd : side) :
    option nat :=
  if is_monotonic_increasing l then Some (searchsorted l x sd)
  else if is_monotonic_decreasing l then
    Some (length l - searchsorted (reverse l) x
                       (match sd with Left => Right | Right => Left end))%nat
  else None.

(** Positions that hold the label [x]. *)
Fixpoint positions (l : list T) (x : T) (i : nat) : list nat :=
  match l with
  | e :: l' =>
      if eqb e x then i :: positions l' x (S i) else positions l' x (S i)
  | [] => []
  end.

(** [Index.get_slice_bound]: a label that is present gives the position
    of its occurrences, which have to be adjacent, their first for the
    left bound and one past their last for the right bound; a label that
    is absent is located by search, which needs a monotonic axis.
    [None] is the [KeyError]. *)
Definition get_slice_bound (l : list T) (x : T) (sd : side) : option nat :=
  match positions l x O with
  | [] => searchsorted_monotonic l x sd
  | first :: rest =>
      let final := List.last rest first in
      if (final - first =? length rest)%nat then
        Some (match sd with Left => first | Right => S final end)
      else None
  end.

(** [Index.slice_locs]: a bound that is [None] is the end of the axis. *)
Definition slice_locs (l : list T) (start stop : option T) :
    option (nat * nat) :=
  i ← match start with Some x => get_slice_bound l x Left | None => Some O end;
  j ← match stop with
      | Some x => get_slice_bound l x Right
      | None => Some (length l)
      end;
  Some (i, j).
End Index.

(** The positional slice [l[i:j]]. *)
Definition islice {A} (i j : nat) (l : list A) : list A :=
  take (j - i) (drop i l).

(** A table cell of a recording: a pressure, or [None] for an empty
    field. *)
Definition reading := option Q.

Record DataFrame : Type := {
  index : list Q;
  columns : list Z;
  values : list (list reading)
}.

(** [df.loc[t0:t1, c0:c1]]: both slices are by label and include both
    ends. *)
Definition loc (df : DataFrame) (t0 t1 : option Q) (c0 c1 : option Z) :
    exn + DataFrame :=
  match slice_locs (index df) t0 t1, slice_locs (columns df) c0 c1 with
  | Some (i0, i1), Some (j0, j1) =>
      inr {| index := islice i0 i1 (index df);
             columns := islice j0 j1 (columns df);
             values := islice j0 j1 <$> islice i0 i1 (values df) |}
  | _, _ => inl KeyError
  end.

End Pandas.

Import Pandas.

(* ===================================================================== *)
(** * pedar.py *)
(* ===================================================================== *)

Module Pedar.

(** A cell of the spreadsheet: text, a number, or an empty cell (NaN). *)
Inductive xl_cell : Type :=
| XStr (s : string)
| XNum (q : Q)
| XNaN.

(** A row of the spreadsheet. The foot symbol is taken to be text; the
    stances are the cells from 'stance phase 1' on, reached by position. *)
Record row : Type := {
  r_asc : xl_cell;          (* column 'Unnamed: 0' *)
  r_foot : string;          (* column 'sideFoot' *)
  r_stances : list xl_cell  (* columns from 'stance phase 1' on *)
}.

(** What the process can read. [pd.read_csv] is always called with the
    same keyword arguments (tab delimiter, nine skipped rows, the header
    row, the column names 0..198, the first column as index), so the
    table it builds is a function of the path; [None] is any failure to
    read. *)
Record world : Type := {
  read_csv : string → option DataFrame;
  read_excel : string → option (list row)
}.

(** ** [Pedar_asc] *)
Record Pedar_asc : Type := { path : string; doc : DataFrame }.

Definition Pedar_asc_init (w : world) (p : string) :
    list event * (exn + Pedar_asc) :=
  ([EvLoad p],
   match read_csv w p with
   | Some df => inr {| path := p; doc := df |}
   | None => inl IOError
   end).

(** [Pedar_asc.id_map]. The [else] branch prints and falls off the end of
    the function, so the caller receives Python's [None]. *)
Definition id_map (self : Pedar_asc) (foot : string) (sensor_id : Z) :
    option Z * list event :=
  if (String.eqb foot "L" || String.eqb foot "l")%bool then
    (* left foot sensor 1~99 map to column 0~98 *)
    (Some (sensor_id - 1), [])
  else if (String.eqb foot "R" || String.eqb foot "r")%bool then
    (* right foot sensor 1~99 map to column 99~198 *)
    (Some (sensor_id + 98), [])
  else
    (None, [EvPrint ("invalid foot type when enquiry " +:+ path self)]).

(** [Pedar_asc.get_time_sensor_slice]; the sensor ids default to 1 and
    99 at the call site. *)
Definition get_time_sensor_slice (self : Pedar_asc) (foot : string)
    (start_time end_time : Q) (start_sensor_id end_sensor_id : Z) :
    list event * (exn + DataFrame) :=
  let '(c0, ev0) := id_map self foot start_sensor_id in
  let '(c1, ev1) := id_map self foot end_sensor_id in
  (ev0 ++ ev1, loc (doc self) (Some start_time) (Some end_time) c0 c1).

(** ** [Pedar_Subject] *)

(** What a foot dictionary holds under its keys: a stance bound or the
    slice of the recording. *)
Inductive leaf : Type :=
| LFloat (q : Q)
| LSlice (df : DataFrame).

(** What [trails[condition][time]] holds: the recording under 'asc', a
    foot dictionary under the foot symbol. *)
Inductive entry : Type :=
| EAsc (asc_object : Pedar_asc)
| EFoot (stances : gmap string leaf).

Record Pedar_Subject : Type := {
  name : string;
  folder : string;
  trails : gmap string (gmap string (gmap string entry))
}.

Definition Pedar_Subject_init (name folder : string) : Pedar_Subject :=
  {| name := name; folder := folder; trails := ∅ |}.

Definition with_trails (self : Pedar_Subject)
    (tr : gmap string (gmap string (gmap string entry))) : Pedar_Subject :=
  {| name := name self; folder := folder self; trails := tr |}.

(** [self.trails[condition][time][foot]], or [None] when a key is missing
    on the way or the entry is not a dictionary. *)
Definition foot_dict (self : Pedar_Subject) (condition time foot : string) :
    option (gmap string leaf) :=
  match trails self !! condition with
  | Some cm =>
      match cm !! time with
      | Some tm =>
          match tm !! foot with
          | Some (EFoot d) => Some d
          | _ => None
          end
      | None => None
      end
  | None => None
  end.

(** [self.trails[condition][time][foot][key] = v]. *)
Definition foot_setitem (self : Pedar_Subject) (condition time foot : string)
    (key : string) (v : leaf) : exn + Pedar_Subject :=
  match trails self !! condition with
  | None => inl KeyError
  | Some cm =>
      match cm !! time with
      | None => inl KeyError
      | Some tm =>
          match tm !! foot with
          | None => inl KeyError
          | Some (EAsc _) => inl TypeError
          | Some (EFoot d) =>
              inr (with_trails self
                     (<[condition :=
                          <[time := <[foot := EFoot (<[key := v]> d)]> tm]> cm]>
                        (trails self)))
          end
      end
  end.

Definition pat_start : pattern :=                (* '^[0-9\.]+[^-]' *)
  [Bol; Plus (either digit (is_char ".")); One (except (is_char "-"))].
Definition pat_end : pattern :=                  (* '[^-][0-9\.]+$' *)
  [One (except (is_char "-")); Plus (either digit (is_char ".")); Eol].

(** [float(re.search(p, stance).group())]: no match gives [None], whose
    [group] is an [AttributeError]; text that is no number is a
    [ValueError]. *)
Definition search_float (p : pattern) (stance : string) : exn + Q :=
  match re_search p stance with
  | None => inl AttributeError
  | Some g =>
      match float g with
      | None => inl ValueError
      | Some q => inr q
      end
  end.

(** The statements of the [try] block for a stance that is text, after
    the [continue] test. An exception leaves the loop body where it is
    raised, with the assignments made so far in place. *)
Definition stance_try (self : Pedar_Subject) (asc_object : Pedar_asc)
    (condition time foot : string) (idx : nat) (stance : string) :
    Pedar_Subject * list event * option exn :=
  match search_float pat_start stance with
  | inl e => (self, [], Some e)
  | inr start =>
      match search_float pat_end stance with
      | inl e => (self, [], Some e)
      | inr end_ =>
          match foot_setitem self condition time foot
                  (pretty idx +:+ "_start") (LFloat start) with
          | inl e => (self, [], Some e)
          | inr self1 =>
              match foot_setitem self1 condition time foot
                      (pretty idx +:+ "_end") (LFloat end_) with
              | inl e => (self1, [], Some e)
              | inr self2 =>
                  match get_time_sensor_slice asc_object foot start end_ 1 99 with
                  | (ev, inl e) => (self2, ev, Some e)
                  | (ev, inr sl) =>
                      match foot_setitem self2 condition time foot
                              (pretty idx) (LSlice sl) with
                      | inl e => (self2, ev, Some e)
                      | inr self3 => (self3, ev, None)
                      end
                  end
              end
          end
      end
  end.

Definition fatal_stance (self : Pedar_Subject)
    (condition time foot stance : string) : event :=
  EvPrint ("FATAL: " +:+ name self +:+ " - [" +:+ condition +:+ "]["
           +:+ time +:+ "][" +:+ foot +:+ "][" +:+ stance +:+ "]").

(** One turn of the loop over [range(len(stances))]: an entry that is not
    text is passed over by [continue]; any exception of the [try] block
    is caught by the bare [except], which prints. *)
Definition stance_step (self : Pedar_Subject) (asc_object : Pedar_asc)
    (condition time foot : string) (idx : nat) (stance : xl_cell) :
    Pedar_Subject * list event :=
  match stance with
  | XStr s =>
      match stance_try self asc_object condition time foot idx s with
      | (self', ev, None) => (self', ev)
      | (self', ev, Some _) =>
          (self', ev ++ [fatal_stance self' condition time foot s])
      end
  | _ => (self, [])
  end.

Fixpoint stance_loop (self : Pedar_Subject) (asc_object : Pedar_asc)
    (condition time foot : string) (idx : nat) (stances : list xl_cell) :
    Pedar_Subject * list event :=
  match stances with
  | [] => (self, [])
  | stance :: rest =>
      let '(self1, ev1) :=
        stance_step self asc_object condition time foot idx stance in
      let '(self2, ev2) :=
        stance_loop self1 asc_object condition time foot (S idx) rest in
      (self2, ev1 ++ ev2)
  end.

(** '{}/{}/{}.asc'.format(self.folder, self.name, asc) *)
Definition asc_path (self : Pedar_Subject) (asc : string) : string :=
  folder self +:+ "/" +:+ name self +:+ "/" +:+ asc +:+ ".asc".

(** [Pedar_Subject.add_trail]. The recording is read outside any [try],
    so a failure to read leaves the method with the exception, after the
    two dictionaries of the path have been created. *)
Definition add_trail (w : world) (self : Pedar_Subject)
    (asc condition time foot : string) (stances : list xl_cell) :
    Pedar_Subject * list event * option exn :=
  let tr1 :=
    match trails self !! condition with
    | Some _ => trails self
    | None => <[condition := ∅]> (trails self)
    end in
  let cm := default ∅ (tr1 !! condition) in
  let cm1 :=
    match cm !! time with
    | Some _ => cm
    | None => <[time := ∅]> cm
    end in
  let tr2 := <[condition := cm1]> tr1 in
  let '(ev, r) :=
    Pedar_asc_init w (asc_path self asc) in
  match r with
  | inl e => (with_trails self tr2, ev, Some e)
  | inr asc_object =>
      let tm := default ∅ (cm1 !! time) in
      let tm1 := <["asc" := EAsc asc_object]> tm in
      let tm2 := <[foot := EFoot ∅]> tm1 in
      let tr3 := <[condition := <[time := tm2]> cm1]> tr2 in
      let '(self', ev') :=
        stance_loop (with_trails self tr3) asc_object condition time foot
          O stances in
      (self', ev ++ ev', None)
  end.

(** The keys that the stance of index [idx] may write in a foot
    dictionary: [str(idx)], '{}_start'.format(idx), '{}_end'.format(idx). *)
Definition stance_keys (idx : nat) : list string :=
  [pretty idx; pretty idx +:+ "_start"; pretty idx +:+ "_end"].

(** A stance text from which the start or the end cannot be read. *)
Definition unparsable (stance : string) : Prop :=
  (∃ e, search_float pat_start stance = inl e)
  ∨ (∃ e, search_float pat_end stance = inl e).

(** The recording stored at [trails[condition][time]['asc']]. *)
Definition recording (self : Pedar_Subject) (condition time : string) :
    option Pedar_asc :=
  match trails self !! condition with
  | Some cm =>
      match cm !! time with
      | Some tm =>
          match tm !! "asc" with
          | Some (EAsc a) => Some a
          | _ => None
          end
      | None => None
      end
  | None => None
  end.

(** The files read, in order, among the effects. *)
Definition loads (evs : list event) : list string :=
  omap (λ ev, match ev with EvLoad p => Some p | _ => None end) evs.

(** ** [Trails_Parser] *)

Definition nonzero_digit : ascii → bool := in_range "1" "9".

(** [generate_asc_pattern]:
    'S[1-9][0-9]* (' + '|'.join(condition_list) + ') [1-9][0-9]*$',
    for condition labels that are plain text. With no label at all the
    group is empty and matches the empty text. *)
Definition generate_asc_pattern (condition_list : list string) : pattern :=
  [One (is_char "S"); One nonzero_digit; Star digit; One (is_char " ");
   Alt (match condition_list with [] => [""] | _ => condition_list end);
   One (is_char " "); One nonzero_digit; Star digit; Eol].

Definition pat_condition : pattern :=         (* '(?<= )[a-z ]+(?= )' *)
  [Behind (is_char " "); Plus (either (in_range "a" "z") (is_char " "));
   Ahead (is_char " ")].
Definition pat_time : pattern := [Plus digit; Eol].               (* '[0-9]+$' *)
Definition pat_subject : pattern :=                             (* '^S[0-9]+' *)
  [Bol; One (is_char "S"); Plus digit].
Definition pat_folder : pattern :=                              (* '^.*(?=/)' *)
  [Bol; Star (except (is_char "010")); Ahead (is_char "/")].

Definition search_group (p : pattern) (s : string) : exn + string :=
  match re_search p s with
  | None => inl AttributeError
  | Some g => inr g
  end.

(** The [try] block of the loop over the rows, for an identifier [asc]
    that passed the check. *)
Definition row_try (w : world) (folder : string) (length : nat)
    (subjects : gmap string Pedar_Subject) (index : nat) (asc : string)
    (r : row) : gmap string Pedar_Subject * list event * option exn :=
  match search_group pat_condition asc with
  | inl e => (subjects, [], Some e)
  | inr condition =>
      match search_group pat_time asc with
      | inl e => (subjects, [], Some e)
      | inr time =>
          match search_group pat_subject asc with
          | inl e => (subjects, [], Some e)
          | inr subject_name =>
              let subjects1 :=
                match subjects !! subject_name with
                | Some _ => subjects
                | None =>
                    <[subject_name := Pedar_Subject_init subject_name folder]>
                      subjects
                end in
              match subjects1 !! subject_name with
              | None => (subjects1, [], Some KeyError)
              | Some subject =>
                  let '(subject', ev, o) :=
                    add_trail w subject asc condition time (r_foot r)
                      (r_stances r) in
                  let subjects2 := <[subject_name := subject']> subjects1 in
                  match o with
                  | Some e => (subjects2, ev, Some e)
                  | None =>
                      (subjects2, ev ++ [EvProgress (index + 1) length], None)
                  end
              end
          end
      end
  end.

Definition fatal_entry (index : nat) : event :=
  EvPrint ("FATAL: " +:+ pretty index +:+ "-th entry").

(** The loop over [self.doc.index]. The identifier is tested before the
    [try]: [re.match] on a cell that is not text raises out of the
    constructor, and an identifier that does not match is reported and
    ends the loop with [break]. *)
Fixpoint rows_loop (w : world) (asc_pattern : pattern) (folder : string)
    (length : nat) (subjects : gmap string Pedar_Subject) (index : nat)
    (rows : list row) : gmap string Pedar_Subject * list event * option exn :=
  match rows with
  | [] => (subjects, [], None)
  | r :: rest =>
      match r_asc r with
      | XStr asc =>
          match re_match asc_pattern asc with
          | None =>
              (subjects, [EvPrint ("invalid asc entry name: " +:+ asc)], None)
          | Some _ =>
              let '(subjects1, ev1) :=
                match row_try w folder length subjects index asc r with
                | (subjects', ev, None) => (subjects', ev)
                | (subjects', ev, Some _) =>
                    (subjects', ev ++ [fatal_entry index])
                end in
              let '(subjects2, ev2, o) :=
                rows_loop w asc_pattern folder length subjects1 (S index)
                  rest in
              (subjects2, ev1 ++ ev2, o)
          end
      | _ => (subjects, [], Some TypeError)
      end
  end.

Record Trails_Parser : Type := {
  condition_list : list string;
  asc_pattern : pattern;
  tp_doc : list row;
  tp_folder : string;
  subjects : gmap string Pedar_Subject
}.

(** [Trails_Parser.__init__]. *)
Definition Trails_Parser_init (w : world) (path : string)
    (condition_list : list string) : list event * (exn + Trails_Parser) :=
  let pat := generate_asc_pattern condition_list in
  match read_excel w path with
  | None => ([], inl IOError)
  | Some rows =>
      match search_group pat_folder path with
      | inl e => ([], inl e)
      | inr dir =>
          let n := length rows in
          let ev0 := EvPrint ("loading " +:+ pretty n +:+ " data entries") in
          match rows_loop w pat dir n ∅ O rows with
          | (subjects, ev, Some e) => (ev0 :: ev, inl e)
          | (subjects, ev, None) =>
              (ev0 :: ev,
               inr {| condition_list := condition_list; asc_pattern := pat;
                      tp_doc := rows; tp_folder := dir;
                      subjects := subjects |})
          end
      end
  end.

End Pedar.

(* ===================================================================== *)
(** * pedarProbe/export.py: [FootHeatmap] *)
(* ===================================================================== *)

Module FootHeatmap.

(** The numbers of a grid. The arithmetic of the heat maps is numpy's
    elementwise arithmetic on float64; no law of it is used, so it is an
    interface: any carrier with these total operations will do. *)
Class Scalar (F : Type) := {
  zero : F;
  of_nat : nat → F;
  add : F → F → F;
  sub : F → F → F;
  mul : F → F → F;
  div : F → F → F
}.
Global Hint Mode Scalar ! : typeclass_instances.

Global Instance Q_scalar : Scalar Q := {|
  zero := 0%Q;
  of_nat n := inject_Z (Z.of_nat n);
  add := Qplus; sub := Qminus; mul := Qmult; div := Qdiv
|}.

(** A two-dimensional array, row by row. *)
Abbreviation ndarray A := (list (list A)) (only parsing).

Definition shape {A} (a : ndarray A) : nat * nat :=
  (length a, match a with r :: _ => length r | [] => O end).

Definition zeros {F} `{Scalar F} (sh : nat * nat) : ndarray F :=
  replicate sh.1 (replicate sh.2 zero).

(** [ImageOps.mirror]: every row back to front. *)
Definition mirror {A} (img : ndarray A) : ndarray A := reverse <$> img.

(** [np.where(mask == k)]: the coordinates that hold [k], in row-major
    order. *)
Fixpoint where_row (k : Z) (r c : nat) (row : list Z) : list (nat * nat) :=
  match row with
  | [] => []
  | x :: row' =>
      if x =? k then (r, c) :: where_row k r (S c) row'
      else where_row k r (S c) row'
  end.

Fixpoint where_rows (k : Z) (r : nat) (mask : ndarray Z) : list (nat * nat) :=
  match mask with
  | [] => []
  | row :: mask' => where_row k r O row ++ where_rows k (S r) mask'
  end.

Definition where_eq (mask : ndarray Z) (k : Z) : list (nat * nat) :=
  where_rows k O mask.

(** [a[(rows, cols)] = v]: every listed pixel receives [v]; a coordinate
    outside the array is an [IndexError]. *)
Definition set_pixel {A} (a : ndarray A) (rc : nat * nat) (v : A) :
    option (ndarray A) :=
  match a !! rc.1 with
  | Some row =>
      if decide (rc.2 < length row)%nat
      then Some (<[rc.1 := <[rc.2 := v]> row]> a)
      else None
  | None => None
  end.

Fixpoint paint {A} (a : ndarray A) (coords : list (nat * nat)) (v : A) :
    option (ndarray A) :=
  match coords with
  | [] => Some a
  | rc :: coords' =>
      match set_pixel a rc v with
      | Some a' => paint a' coords' v
      | None => None
      end
  end.

(** ** The class attributes: the mask index, loaded once *)
Record mask_index : Type := {
  l_shape : nat * nat;
  r_shape : nat * nat;
  l_index : gmap Z (list (nat * nat));
  r_index : gmap Z (list (nat * nat))
}.

(** The body of the loop [for n in range(0, 198)]. *)
Definition load_step (l_mask r_mask : ndarray Z)
    (ix : gmap Z (list (nat * nat)) * gmap Z (list (nat * nat))) (n : Z) :
    gmap Z (list (nat * nat)) * gmap Z (list (nat * nat)) :=
  (<[n := where_eq l_mask (n + 1)]> ix.1,
   <[n + 99 := where_eq r_mask (n + 1)]> ix.2).

(** [FootHeatmap.load_foot_mask], on the pixels of the mask image. *)
Definition load_foot_mask (l_img : ndarray Z) : mask_index :=
  let r_img := mirror l_img in
  let l_mask := l_img in
  let r_mask := r_img in
  let ix := foldl (load_step l_mask r_mask) (∅, ∅) (seqZ 0 198) in
  {| l_shape := shape l_mask; r_shape := shape r_mask;
     l_index := ix.1; r_index := ix.2 |}.

(** An attribute of a node: a series of values labelled by channel. *)
Abbreviation series F := (list (Z * F)) (only parsing).

(** [s[n]]: the value under the label [n]. *)
Fixpoint series_get {F} (s : series F) (n : Z) : option F :=
  match s with
  | [] => None
  | (m, v) :: s' => if m =? n then Some v else series_get s' n
  end.

(** [s.index]: the labels, in order. *)
Definition labels {F} (s : series F) : list Z := map fst s.

(** A node, as far as this file reads it: [node.attribute]. *)
Abbreviation node F := (gmap string (list (Z * F))) (only parsing).

(** One turn of the loop of [fill_foot_heat_map] over the labels of the
    series, on the pair [(l_pedar, r_pedar)]. A label that the index
    dictionary lacks is a [KeyError]. *)
Definition fill_step {F} (cls : mask_index) (s : series F)
    (lr : ndarray F * ndarray F) (n : Z) : exn + ndarray F * ndarray F :=
  match series_get s n with
  | None => inl KeyError
  | Some v =>
      if n <=? 99 then
        (* filling left foot area *)
        match l_index cls !! n with
        | None => inl KeyError
        | Some coords =>
            match paint lr.1 coords v with
            | Some l' => inr (l', lr.2)
            | None => inl IndexError
            end
        end
      else
        (* filling right foot area *)
        match r_index cls !! n with
        | None => inl KeyError
        | Some coords =>
            match paint lr.2 coords v with
            | Some r' => inr (lr.1, r')
            | None => inl IndexError
            end
        end
  end.

Fixpoint fill_loop {F} (cls : mask_index) (s : series F)
    (lr : ndarray F * ndarray F) (labels : list Z) :
    exn + ndarray F * ndarray F :=
  match labels with
  | [] => inr lr
  | n :: labels' =>
      match fill_step cls s lr n with
      | inl e => inl e
      | inr lr' => fill_loop cls s lr' labels'
      end
  end.

(** [FootHeatmap.fill_foot_heat_map]: the two grids of the new object. *)
Definition fill_foot_heat_map {F} `{Scalar F} (cls : mask_index)
    (nd : node F) (attr_name : string) : exn + ndarray F * ndarray F :=
  let l_pedar : ndarray F := zeros (l_shape cls) in
  let r_pedar : ndarray F := zeros (r_shape cls) in
  match nd !! attr_name with
  | None => inl KeyError
  | Some s => fill_loop cls s (l_pedar, r_pedar) (labels s)
  end.

(** ** Objects

    Heat maps and their grids are objects of the store: a heat map holds
    references to two arrays, and the arithmetic below updates arrays in
    place. The store only grows; a new object takes the next address. *)
Inductive object (F : Type) : Type :=
| Ndarray (a : ndarray F)
| Heatmap (l_pedar r_pedar : nat).
Global Arguments Ndarray {F} a.
Global Arguments Heatmap {F} l_pedar r_pedar.

Abbreviation store F := (list (object F)) (only parsing).

Definition alloc {F} (h : store F) (o : object F) : store F * nat :=
  (h ++ [o], length h).

(** [FootHeatmap.__init__]: the mask is loaded when the class has none
    yet, and the grids are filled. [open_image] is the pixel array of an
    image file, [None] when it cannot be read. *)
Definition __init__ {F} `{Scalar F} (open_image : string → option (ndarray Z))
    (cls : option mask_index) (h : store F) (nd : node F)
    (attr_name mask_dir : string) :
    option mask_index * store F * (exn + nat) :=
  let loaded :=
    match cls with
    | Some ix => inr ix
    | None =>
        match open_image mask_dir with
        | Some img => inr (load_foot_mask img)
        | None => inl IOError
        end
    end in
  match loaded with
  | inl e => (cls, h, inl e)
  | inr ix =>
      match fill_foot_heat_map ix nd attr_name with
      | inl e => (Some ix, h, inl e)
      | inr (l, r) =>
          let '(h1, pl) := alloc h (Ndarray l) in
          let '(h2, pr) := alloc h1 (Ndarray r) in
          let '(h3, self) := alloc h2 (Heatmap pl pr) in
          (Some ix, h3, inr self)
      end
  end.

(** ** Arithmetic *)

(** [copy.deepcopy(self)]: the object and the arrays it refers to are
    copied, an array that is referred to twice being copied once. *)
Definition deepcopy {F} (h : store F) (self : nat) : store F * (exn + nat) :=
  match h !! self with
  | Some (Heatmap l r) =>
      match h !! l, h !! r with
      | Some (Ndarray a), Some (Ndarray b) =>
          let '(h1, l') := alloc h (Ndarray a) in
          if (l =? r)%nat then
            let '(h2, new) := alloc h1 (Heatmap l' l') in (h2, inr new)
          else
            let '(h2, r') := alloc h1 (Ndarray b) in
            let '(h3, new) := alloc h2 (Heatmap l' r') in (h3, inr new)
      | _, _ => (h, inl TypeError)
      end
  | _ => (h, inl AttributeError)
  end.

(** numpy's broadcasting of an operand onto the array that is updated in
    place: along each axis the operand has the extent of the target or
    the extent 1, which is then repeated. *)
Definition expand {A} (n : nat) (l : list A) : option (list A) :=
  if (length l =? n)%nat then Some l
  else match l with
       | [x] => Some (replicate n x)
       | _ => None
       end.

Definition broadcast_to {A} (sh : nat * nat) (b : ndarray A) :
    option (ndarray A) :=
  match mapM (expand sh.2) b with
  | Some rows => expand sh.1 rows
  | None => None
  end.

(** [target op= operand] on arrays, elementwise and in place; shapes that
    do not broadcast are a [ValueError]. *)
Definition inplace {F} (op : F → F → F) (h : store F) (target operand : nat) :
    exn + store F :=
  match h !! target, h !! operand with
  | Some (Ndarray a), Some (Ndarray b) =>
      match broadcast_to (shape a) b with
      | Some b' => inr (<[target := Ndarray (zip_with (zip_with op) a b')]> h)
      | None => inl ValueError
      end
  | _, _ => inl TypeError
  end.

(** [target op= val] for a number [val]. *)
Definition inplace_scalar {F} (op : F → F → F) (h : store F) (target : nat)
    (val : F) : exn + store F :=
  match h !! target with
  | Some (Ndarray a) =>
      inr (<[target := Ndarray (map (map (λ x, op x val)) a)]> h)
  | _ => inl TypeError
  end.

(** The common shape of [__add__] and [__sub__]. *)
Definition binary {F} (op : F → F → F) (h : store F) (self other : nat) :
    store F * (exn + nat) :=
  match deepcopy h self with
  | (h1, inl e) => (h1, inl e)
  | (h1, inr new_hm) =>
      match h1 !! new_hm, h1 !! other with
      | Some (Heatmap nl nr), Some (Heatmap ol or) =>
          match inplace op h1 nl ol with
          | inl e => (h1, inl e)
          | inr h2 =>
              match inplace op h2 nr or with
              | inl e => (h2, inl e)
              | inr h3 => (h3, inr new_hm)
              end
          end
      | _, _ => (h1, inl AttributeError)
      end
  end.

(** The common shape of [__mul__] and [__truediv__]. *)
Definition scalar {F} (op : F → F → F) (h : store F) (self : nat) (val : F) :
    store F * (exn + nat) :=
  match deepcopy h self with
  | (h1, inl e) => (h1, inl e)
  | (h1, inr new_hm) =>
      match h1 !! new_hm with
      | Some (Heatmap nl nr) =>
          match inplace_scalar op h1 nl val with
          | inl e => (h1, inl e)
          | inr h2 =>
              match inplace_scalar op h2 nr val with
              | inl e => (h2, inl e)
              | inr h3 => (h3, inr new_hm)
              end
          end
      | _ => (h1, inl AttributeError)
      end
  end.

Definition __add__ {F} `{Scalar F} := binary (F:=F) add.
Definition __sub__ {F} `{Scalar F} := binary (F:=F) sub.
Definition __mul__ {F} `{Scalar F} := scalar (F:=F) mul.
Definition __truediv__ {F} `{Scalar F} := scalar (F:=F) div.

(** [sum(items, start=start)]: [start + items[0] + items[1] + ...], from
    the left. *)
Fixpoint sum {F} `{Scalar F} (h : store F) (start : nat) (items : list nat) :
    store F * (exn + nat) :=
  match items with
  | [] => (h, inr start)
  | x :: items' =>
      match __add__ h start x with
      | (h1, inl e) => (h1, inl e)
      | (h1, inr acc) => sum h1 acc items'
      end
  end.

(** [FootHeatmap.average], on the tuple [hms] of its arguments:
    [hms[0]] is an [IndexError] when there is none. *)
Definition average {F} `{Scalar F} (h : store F) (hms : list nat) :
    store F * (exn + nat) :=
  match hms with
  | [] => (h, inl IndexError)
  | first :: rest =>
      match sum h first rest with
      | (h1, inl e) => (h1, inl e)
      | (h1, inr total) => __truediv__ h1 total (of_nat (length hms))
      end
  end.

(** The five arithmetic operations, as one request. *)
Inductive operation (F : Type) : Type :=
| OpAdd (self other : nat)
| OpSub (self other : nat)
| OpMul (self : nat) (val : F)
| OpDiv (self : nat) (val : F)
| OpAverage (hms : list nat).
Global Arguments OpAdd {F} self other.
Global Arguments OpSub {F} self other.
Global Arguments OpMul {F} self val.
Global Arguments OpDiv {F} self val.
Global Arguments OpAverage {F} hms.

Definition run {F} `{Scalar F} (h : store F) (op : operation F) :
    store F * (exn + nat) :=
  match op with
  | OpAdd self other => __add__ h self other
  | OpSub self other => __sub__ h self other
  | OpMul self val => __mul__ h self val
  | OpDiv self val => __truediv__ h self val
  | OpAverage hms => average h hms
  end.

(** The two grids [(l_pedar, r_pedar)] of the heat map at an address. *)
Definition grids {F} (h : store F) (p : nat) : option (ndarray F * ndarray F) :=
  match h !! p with
  | Some (Heatmap l r) =>
      match h !! l, h !! r with
      | Some (Ndarray a), Some (Ndarray b) => Some (a, b)
      | _, _ => None
      end
  | _ => None
  end.

(** Every object of [h] is still there, unchanged, in [h']. *)
Definition preserved {F} (h h' : store F) : Prop :=
  ∀ p o, h !! p = Some o → h' !! p = Some o.

(** [new] is a heat map of [h'] that [h] did not have, on grids that [h]
    did not have either. *)
Definition fresh_heatmap {F} (h h' : store F) (new : nat) : Prop :=
  (length h ≤ new)%nat
  ∧ ∃ l r a b, h' !! new = Some (Heatmap l r)
               ∧ (length h ≤ l)%nat ∧ (length h ≤ r)%nat
               ∧ h' !! l = Some (Ndarray a) ∧ h' !! r = Some (Ndarray b).

End FootHeatmap.

(* ===================================================================== *)
(** * The models at work *)
(* ===================================================================== *)

Example stance_start_of_interval :
  re_search Pedar.pat_start "12.5--45.0" = Some "12.5".
Proof. reflexivity. Qed.

Example stance_end_of_interval :
  re_search Pedar.pat_end "12.5--45.0" = Some "45.0".
Proof. reflexivity. Qed.

Example stance_start_single_digit :
  re_search Pedar.pat_start "5--45.0" = None.
Proof. reflexivity. Qed.

Example float_decimal : float "12.5" = Some (125 # 10).
Proof. reflexivity. Qed.

Example float_signed_padded : float " +.5 " = Some (5 # 10).
Proof. reflexivity. Qed.

Example float_two_dots : float "1.2.3" = None.
Proof. reflexivity. Qed.

Example asc_pattern_accepts :
  re_match (Pedar.generate_asc_pattern ["fast walking"; "slow walking"])
    "S12 slow walking 3" = Some "S12 slow walking 3".
Proof. reflexivity. Qed.

Example asc_pattern_rejects_leading_zero :
  re_match (Pedar.generate_asc_pattern ["fast walking"; "slow walking"])
    "S02 slow walking 3" = None.
Proof. reflexivity. Qed.

Example asc_condition :
  re_search Pedar.pat_condition "S12 slow walking 3" = Some "slow walking".
Proof. reflexivity. Qed.

Example asc_time : re_search Pedar.pat_time "S12 slow walking 3" = Some "3".
Proof. reflexivity. Qed.

Example asc_subject :
  re_search Pedar.pat_subject "S12 slow walking 3" = Some "S12".
Proof. reflexivity. Qed.

Example path_folder :
  re_search Pedar.pat_folder "subjects/x/walking.xlsx" = Some "subjects/x".
Proof. reflexivity. Qed.

(* ===================================================================== *)
(** * Properties *)
(* ===================================================================== *)

Import Pedar.

(** ** The channel of a sensor *)

(** C1. A foot symbol other than 'L', 'l', 'R', 'r' makes the channel lookup
    fail: [id_map] reports the invalid foot on the log and hands back no
    channel index at all (Python's [None]), whatever the sensor id. *)
Theorem id_map_invalid_foot (self : Pedar_asc) (foot : string)
    (sensor_id : Z) :
  foot ≠ "L" → foot ≠ "l" → foot ≠ "R" → foot ≠ "r" →
  id_map self foot sensor_id
  = (None, [EvPrint ("invalid foot type when enquiry " +:+ path self)]).
Proof.
  intros HL Hl HR Hr. unfold id_map.
  apply String.eqb_neq in HL, Hl, HR, Hr.
  by rewrite HL, Hl, HR, Hr.
Qed.

Lemma id_map_invalid_foot_witness :
  id_map {| path := "subjects/S1/S1 normal walking 1.asc";
            doc := {| index := []; columns := []; values := [] |} |} "X" 5
  = (None,
     [EvPrint
        "invalid foot type when enquiry subjects/S1/S1 normal walking 1.asc"]).
Proof. by apply id_map_invalid_foot. Defined.

(** C6. For sensor ids 1..99 the left foot maps to [sensor_id - 1] and the
    right foot to [sensor_id + 98], with nothing printed, and the lower-case
    symbols give the same channels as the upper-case ones; the channels lie
    in 0..98 and 99..197. *)
Theorem id_map_channels (self : Pedar_asc) (sensor_id : Z) :
  1 ≤ sensor_id ≤ 99 →
  id_map self "L" sensor_id = (Some (sensor_id - 1), [])
  ∧ id_map self "R" sensor_id = (Some (sensor_id + 98), [])
  ∧ id_map self "l" sensor_id = id_map self "L" sensor_id
  ∧ id_map self "r" sensor_id = id_map self "R" sensor_id
  ∧ 0 ≤ sensor_id - 1 ≤ 98 ∧ 99 ≤ sensor_id + 98 ≤ 197.
Proof. intros Hs. repeat split; lia. Qed.

Lemma id_map_channels_witness :
  let self := {| path := "a.asc";
                 doc := {| index := []; columns := []; values := [] |} |} in
  id_map self "L" 7 = (Some 6, []) ∧ id_map self "R" 7 = (Some 105, []).
Proof.
  intros self.
  destruct (id_map_channels self 7 ltac:(lia)) as (HL & HR & _).
  by split.
Defined.

(** ** The ingestion loop *)

(** C3. When the identifier of a row fails the naming pattern, and the rows
    before it all passed, the loop reports that identifier and ends: the
    subjects are those built from the rows before it, the log is theirs
    followed by the report, and the rows after it play no part. *)
Theorem rows_loop_stops_at_malformed (w : world) (pat : pattern)
    (dir : string) (len : nat) (subj : gmap string Pedar_Subject) (idx : nat)
    (pre post : list row) (r : row) (asc : string) :
  Forall (λ r', ∃ s, r_asc r' = XStr s ∧ is_Some (re_match pat s)) pre →
  r_asc r = XStr asc →
  re_match pat asc = None →
  rows_loop w pat dir len subj idx (pre ++ r :: post)
  = ((rows_loop w pat dir len subj idx pre).1.1,
     (rows_loop w pat dir len subj idx pre).1.2
       ++ [EvPrint ("invalid asc entry name: " +:+ asc)],
     None).
Proof.
  intros Hpre Hr Hbad. revert subj idx.
  induction Hpre as [|r' pre (s & Hs & [g Hg]) _ IH]; intros subj idx; simpl.
  - by rewrite Hr, Hbad.
  - rewrite Hs, Hg.
    destruct (row_try w dir len subj idx s r') as [[subj1 ev1] [e|]];
      rewrite IH;
      destruct (rows_loop w pat dir len subj1 (S idx) pre) as [[subj2 ev2] o];
      simpl; by rewrite <- ?(assoc_L (++)).
Qed.

Lemma rows_loop_stops_at_malformed_witness :
  let w := {| read_csv := λ _, None; read_excel := λ _, None |} in
  let pat := generate_asc_pattern ["fast walking"; "normal walking"] in
  let good := {| r_asc := XStr "S1 normal walking 1"; r_foot := "L";
                 r_stances := [XStr "10.0--20.0"] |} in
  let bad := {| r_asc := XStr "S1 jogging 1"; r_foot := "L";
                r_stances := [XStr "10.0--20.0"] |} in
  rows_loop w pat "subjects" 3 ∅ 0 ([good] ++ bad :: [good])
  = ((rows_loop w pat "subjects" 3 ∅ 0 [good]).1.1,
     (rows_loop w pat "subjects" 3 ∅ 0 [good]).1.2
       ++ [EvPrint "invalid asc entry name: S1 jogging 1"],
     None).
Proof.
  intros w pat good bad.
  apply (rows_loop_stops_at_malformed w pat "subjects" 3 ∅ 0 [good] [good] bad
           "S1 jogging 1").
  - repeat constructor. exists "S1 normal walking 1". split; [done|].
    by exists "S1 normal walking 1".
  - done.
  - done.
Defined.

(** ** The loop over the stances *)

Lemma foot_setitem_name self c t f k v self' :
  foot_setitem self c t f k v = inr self' → name self' = name self.
Proof.
  unfold foot_setitem. intros Hset.
  repeat case_match; by simplify_eq.
Qed.

Lemma stance_step_name self a c t f i x :
  name (stance_step self a c t f i x).1 = name self.
Proof.
  destruct x as [s| |]; simpl; [|done..].
  unfold stance_try.
  repeat (case_match; simplify_eq; simpl; try done);
    repeat match goal with
      | H : foot_setitem _ _ _ _ _ _ = inr _ |- _ =>
          apply foot_setitem_name in H
      end; congruence.
Qed.

Lemma stance_loop_name self a c t f i xs :
  name (stance_loop self a c t f i xs).1 = name self.
Proof.
  revert self i. induction xs as [|x xs IH]; intros self i; simpl; [done|].
  pose proof (stance_step_name self a c t f i x) as Hx.
  destruct (stance_step self a c t f i x) as [self1 ev1].
  specialize (IH self1 (S i)).
  destruct (stance_loop self1 a c t f (S i) xs) as [self2 ev2].
  simpl in *. congruence.
Qed.

(** The loop takes the stances one after the other, whatever each of them
    does. *)
Lemma stance_loop_app self a c t f i pre post :
  stance_loop self a c t f i (pre ++ post)
  = ((stance_loop (stance_loop self a c t f i pre).1 a c t f
        (i + length pre) post).1,
     (stance_loop self a c t f i pre).2
       ++ (stance_loop (stance_loop self a c t f i pre).1 a c t f
             (i + length pre) post).2).
Proof.
  revert self i. induction pre as [|x pre IH]; intros self i; simpl.
  - rewrite Nat.add_0_r. by destruct (stance_loop self a c t f i post).
  - destruct (stance_step self a c t f i x) as [self1 ev1].
    rewrite IH. replace (S i + length pre)%nat with (i + S (length pre))%nat by lia.
    destruct (stance_loop self1 a c t f (S i) pre) as [self2 ev2]; simpl.
    by rewrite (assoc_L (++)).
Qed.

Lemma stance_step_unparsable self a c t f i s :
  unparsable s →
  stance_step self a c t f i (XStr s) = (self, [fatal_stance self c t f s]).
Proof.
  intros [[e He]|[e He]]; simpl; unfold stance_try; rewrite He.
  - done.
  - by destruct (search_float pat_start s).
Qed.

(** C4. In the loop of [add_trail] over the stances, every stance is taken
    in turn, whatever the one before it did. An entry that is not text
    changes nothing and prints nothing. A text whose start or end cannot be
    read changes nothing either, and is reported with the subject, the
    condition, the time, the foot and the text itself. In both cases the
    stances after it are processed from the very state the stances before
    it left, and once the recording is read [add_trail] ends without an
    exception. *)
Theorem add_trail_stance_failure_is_local (self : Pedar_Subject)
    (a : Pedar_asc) (c t f : string) (idx : nat) (pre post : list xl_cell)
    (x : xl_cell) :
  let st := stance_loop self a c t f idx pre in
  let i := (idx + length pre)%nat in
  let sx := stance_step st.1 a c t f i x in
  let st' := stance_loop sx.1 a c t f (S i) post in
  stance_loop self a c t f idx (pre ++ x :: post)
  = (st'.1, st.2 ++ sx.2 ++ st'.2)
  ∧ ((∀ s, x ≠ XStr s) → sx = (st.1, []))
  ∧ (∀ s, x = XStr s → unparsable s →
       sx = (st.1, [fatal_stance self c t f s]))
  ∧ (∀ w asc stances, is_Some (read_csv w (asc_path self asc)) →
       (add_trail w self asc c t f stances).2 = None).
Proof.
  intros st i sx st'. repeat split.
  - rewrite stance_loop_app. fold st. fold i. simpl.
    fold sx. destruct sx as [s1 e1] eqn:Hsx. simpl in st'. fold st'.
    by destruct st' as [s2 e2].
  - intros Hx. subst sx. destruct x as [s| |]; [by destruct (Hx s)|done..].
  - intros s -> Hs. subst sx.
    rewrite (stance_step_unparsable _ _ _ _ _ _ _ Hs).
    unfold fatal_stance. subst st. by rewrite stance_loop_name.
  - intros w asc stances [df Hdf]. unfold add_trail, Pedar_asc_init.
    rewrite Hdf. by case_match.
Qed.

Lemma add_trail_stance_failure_is_local_witness :
  let self := Pedar_Subject_init "S1" "subjects" in
  let a := {| path := "subjects/S1/S1 normal walking 1.asc";
              doc := {| index := []; columns := []; values := [] |} |} in
  stance_loop self a "normal walking" "1" "L" 0 [XNaN; XStr "abc"; XNaN]
  = (self, [EvPrint "FATAL: S1 - [normal walking][1][L][abc]"]).
Proof.
  intros self a.
  destruct (add_trail_stance_failure_is_local self a "normal walking" "1" "L"
              0 [XNaN] [XNaN] (XStr "abc")) as (Happ & _ & Hbad & _).
  simpl app in Happ. rewrite Happ, (Hbad "abc" eq_refl); [done|].
  left. by exists AttributeError.
Defined.

(** ** The keys of a foot dictionary *)

Lemma pretty_N_char_digit x : digit (pretty_N_char x) = true.
Proof. unfold pretty_N_char. by repeat case_match. Qed.

Lemma pretty_N_go_digits x s :
  all_digits s = true → all_digits (pretty_N_go x s) = true.
Proof.
  revert s. induction (N.lt_wf_0 x) as [x _ IH]; intros s Hs.
  destruct (decide (x = 0)%N) as [->|Hx]; [by rewrite pretty_N_go_0|].
  rewrite pretty_N_go_step by lia. apply IH.
  - apply N.div_lt; lia.
  - simpl. by rewrite pretty_N_char_digit.
Qed.

Lemma pretty_nat_digits (n : nat) : all_digits (pretty n) = true.
Proof.
  unfold pretty, pretty_nat, pretty, pretty_N. case_decide; [done|].
  by apply pretty_N_go_digits.
Qed.

Lemma app_empty (t : string) : "" +:+ t = t.
Proof. reflexivity. Qed.
Lemma app_String c (s t : string) : String c s +:+ t = String c (s +:+ t).
Proof. reflexivity. Qed.
Lemma app_empty_r (s : string) : s +:+ "" = s.
Proof. induction s as [|c s IH]; [done|]. by rewrite app_String, IH. Qed.

Lemma key_split d1 d2 t1 t2 :
  all_digits d1 = true → all_digits d2 = true → headless t1 → headless t2 →
  d1 +:+ t1 = d2 +:+ t2 → d1 = d2 ∧ t1 = t2.
Proof.
  revert d2. induction d1 as [|c d1 IH]; intros [|c' d2] H1 H2 Ht1 Ht2;
    rewrite ?app_empty, ?app_String; intros Heq.
  - done.
  - subst t1. cbn in H2, Ht1. apply andb_prop in H2 as [? _]. congruence.
  - subst t2. cbn in H1, Ht2. apply andb_prop in H1 as [? _]. congruence.
  - cbn in H1, H2. apply andb_prop in H1 as [_ H1]. apply andb_prop in H2 as [_ H2].
    injection Heq as -> Heq. destruct (IH d2 H1 H2 Ht1 Ht2 Heq) as [-> ->]. done.
Qed.

Lemma key_inj (i j : nat) (t1 t2 : string) :
  headless t1 → headless t2 →
  pretty i +:+ t1 = pretty j +:+ t2 → i = j ∧ t1 = t2.
Proof.
  intros Ht1 Ht2 Heq.
  destruct (key_split _ _ _ _ (pretty_nat_digits i) (pretty_nat_digits j)
              Ht1 Ht2 Heq) as [Hp ->].
  split; [|done]. by apply (inj pretty).
Qed.

Lemma stance_keys_disjoint i j k :
  i ≠ j → k ∈ stance_keys i → k ∉ stance_keys j.
Proof.
  intros Hij Hi Hj. unfold stance_keys in *.
  rewrite <- (app_empty_r (pretty i)) in Hi at 1.
  rewrite <- (app_empty_r (pretty j)) in Hj at 1.
  set_unfold.
  destruct Hi as [Hi | [Hi | [Hi | []]]];
    destruct Hj as [Hj | [Hj | [Hj | []]]];
    rewrite Hi in Hj; apply key_inj in Hj as [? ?]; done.
Qed.

Lemma foot_setitem_dict self c t f k v d :
  foot_dict self c t f = Some d →
  ∃ self', foot_setitem self c t f k v = inr self'
           ∧ foot_dict self' c t f = Some (<[k := v]> d).
Proof.
  unfold foot_dict, foot_setitem. intros Hd.
  destruct (trails self !! c) as [cm|] eqn:Hc; [|done].
  destruct (cm !! t) as [tm|] eqn:Ht; [|done].
  destruct (tm !! f) as [[?|d']|] eqn:Hf; simplify_eq.
  eexists. split; [done|]. simpl. by simplify_map_eq.
Qed.

Lemma stance_step_dict self a c t f i x d :
  foot_dict self c t f = Some d →
  ∃ d', foot_dict (stance_step self a c t f i x).1 c t f = Some d'
        ∧ ∀ k, k ∉ stance_keys i → d' !! k = d !! k.
Proof.
  intros Hd. destruct x as [s| |]; simpl; [|by eauto..].
  unfold stance_try.
  destruct (search_float pat_start s) as [?|q0]; simpl; [by eauto|].
  destruct (search_float pat_end s) as [?|q1]; simpl; [by eauto|].
  destruct (foot_setitem_dict self c t f (pretty i +:+ "_start") (LFloat q0) d Hd)
    as (self1 & -> & Hd1).
  destruct (foot_setitem_dict self1 c t f (pretty i +:+ "_end") (LFloat q1) _ Hd1)
    as (self2 & -> & Hd2).
  destruct (get_time_sensor_slice a f q0 q1 1 99) as [ev [e|sl]]; simpl.
  - eexists; split; [done|]. intros k Hk. unfold stance_keys in Hk. set_unfold.
    rewrite !lookup_insert_ne by naive_solver. done.
  - destruct (foot_setitem_dict self2 c t f (pretty i) (LSlice sl) _ Hd2)
      as (self3 & -> & Hd3). simpl.
    eexists; split; [done|]. intros k Hk. unfold stance_keys in Hk. set_unfold.
    rewrite !lookup_insert_ne by naive_solver. done.
Qed.

Lemma stance_loop_dict self a c t f i xs d :
  foot_dict self c t f = Some d →
  ∃ d', foot_dict (stance_loop self a c t f i xs).1 c t f = Some d'
        ∧ ∀ k, (∀ j, (i ≤ j < i + length xs)%nat → k ∉ stance_keys j) →
               d' !! k = d !! k.
Proof.
  revert self i d. induction xs as [|x xs IH]; intros self i d Hd; simpl.
  - by eauto.
  - destruct (stance_step_dict self a c t f i x d Hd) as (d1 & Hd1 & Hk1).
    destruct (stance_step self a c t f i x) as [self1 ev1]. simpl in Hd1.
    destruct (IH self1 (S i) d1 Hd1) as (d2 & Hd2 & Hk2).
    destruct (stance_loop self1 a c t f (S i) xs) as [self2 ev2]. simpl in *.
    exists d2. split; [done|]. intros k Hk.
    rewrite Hk2, Hk1; [done|apply Hk; lia|intros j Hj; apply Hk; lia].
Qed.

Lemma stance_step_slice_raises self a c t f i s d q0 q1 e :
  foot_dict self c t f = Some d →
  search_float pat_start s = inr q0 →
  search_float pat_end s = inr q1 →
  (get_time_sensor_slice a f q0 q1 1 99).2 = inl e →
  foot_dict (stance_step self a c t f i (XStr s)).1 c t f
  = Some (<[pretty i +:+ "_end" := LFloat q1]>
            (<[pretty i +:+ "_start" := LFloat q0]> d)).
Proof.
  intros Hd H0 H1 He. simpl. unfold stance_try. rewrite H0, H1.
  destruct (foot_setitem_dict self c t f (pretty i +:+ "_start") (LFloat q0) d Hd)
    as (self1 & -> & Hd1).
  destruct (foot_setitem_dict self1 c t f (pretty i +:+ "_end") (LFloat q1) _ Hd1)
    as (self2 & -> & Hd2).
  destruct (get_time_sensor_slice a f q0 q1 1 99) as [ev [e'|sl]]; simpl in *;
    [done|discriminate].
Qed.

(** C10. A stance is not processed atomically. When its start and its end
    are read but the slice of the recording raises, the foot dictionary that
    [add_trail] leaves holds the start under '<i>_start' and the end under
    '<i>_end', and nothing under '<i>': the two bounds written before the
    failure stay. *)
Theorem add_trail_stance_not_atomic (w : world) (self : Pedar_Subject)
    (asc c t foot : string) (stances : list xl_cell) (i : nat) (s : string)
    (df : DataFrame) (q0 q1 : Q) (e : exn) :
  read_csv w (asc_path self asc) = Some df →
  stances !! i = Some (XStr s) →
  search_float pat_start s = inr q0 →
  search_float pat_end s = inr q1 →
  (get_time_sensor_slice {| path := asc_path self asc; doc := df |}
     foot q0 q1 1 99).2 = inl e →
  ∃ d, foot_dict (add_trail w self asc c t foot stances).1.1 c t foot = Some d
       ∧ d !! (pretty i +:+ "_start") = Some (LFloat q0)
       ∧ d !! (pretty i +:+ "_end") = Some (LFloat q1)
       ∧ d !! pretty i = None.
Proof.
  intros Hdf Hi H0 H1 He. unfold add_trail, Pedar_asc_init. rewrite Hdf.
  set (a := {| path := asc_path self asc; doc := df |}) in *.
  match goal with
  | |- context [stance_loop ?s0 a c t foot 0 stances] => set (self0 := s0)
  end.
  assert (foot_dict self0 c t foot = Some ∅) as Hd0
    by (subst self0; unfold foot_dict; simpl; by rewrite !lookup_insert_eq).
  rewrite <- (take_drop_middle stances i (XStr s) Hi).
  assert (length (take i stances) = i) as Hlen
    by (apply length_take_le, Nat.lt_le_incl, (lookup_lt_Some _ _ _ Hi)).
  rewrite stance_loop_app, Hlen. simpl.
  destruct (stance_loop_dict self0 a c t foot 0 (take i stances) ∅ Hd0)
    as (d1 & Hd1 & Hk1).
  destruct (stance_loop self0 a c t foot 0 (take i stances)) as [self1 ev1].
  simpl in Hd1 |- *.
  pose proof (stance_step_slice_raises self1 a c t foot i s d1 q0 q1 e
                Hd1 H0 H1 He) as Hd2.
  simpl in Hd2.
  destruct (match stance_try self1 a c t foot i s with
            | (self', ev, None) => (self', ev)
            | (self', ev, Some _) =>
                (self', ev ++ [fatal_stance self' c t foot s])
            end) as [self2 ev2].
  simpl in Hd2.
  destruct (stance_loop_dict self2 a c t foot (S i) (drop (S i) stances) _ Hd2)
    as (d3 & Hd3 & Hk3).
  destruct (stance_loop self2 a c t foot (S i) (drop (S i) stances))
    as [self3 ev3].
  simpl in Hd3 |- *. exists d3. split; [done|].
  assert (∀ k, k ∈ stance_keys i →
            ∀ j, (S i ≤ j < S i + length (drop (S i) stances))%nat →
                 k ∉ stance_keys j) as Hlater.
  { intros k Hk j Hj. apply (stance_keys_disjoint i j); [lia|done]. }
  assert (∀ k, k ∈ stance_keys i → d1 !! k = None) as Hearlier.
  { intros k Hk. rewrite Hk1; [by rewrite lookup_empty|].
    intros j Hj. rewrite Hlen in Hj. apply (stance_keys_disjoint i j); [lia|done]. }
  assert (pretty i +:+ "_start" ≠ pretty i +:+ "_end") as Hse
    by (intros [_ ?]%key_inj; done).
  assert (pretty i ≠ pretty i +:+ "_start") as Hs.
  { rewrite <- (app_empty_r (pretty i)) at 1. by intros [_ ?]%key_inj. }
  assert (pretty i ≠ pretty i +:+ "_end") as He'.
  { rewrite <- (app_empty_r (pretty i)) at 1. by intros [_ ?]%key_inj. }
  unfold stance_keys in *.
  rewrite !Hk3 by (apply Hlater; set_solver).
  rewrite lookup_insert_ne, lookup_insert_eq by done.
  rewrite lookup_insert_eq.
  rewrite !lookup_insert_ne by done.
  repeat split. apply Hearlier. set_solver.
Qed.

Lemma add_trail_stance_not_atomic_witness :
  let df := {| index := [5; 20; 10]%Q; columns := seqZ 0 199; values := [] |} in
  let w := {| read_csv := λ _, Some df; read_excel := λ _, None |} in
  let self := Pedar_Subject_init "S1" "subjects" in
  ∃ d, foot_dict
         (add_trail w self "S1 normal walking 1" "normal walking" "1" "L"
            [XStr "12.0--20.0"]).1.1 "normal walking" "1" "L" = Some d
       ∧ d !! "0_start" = Some (LFloat (120 # 10))
       ∧ d !! "0_end" = Some (LFloat (200 # 10))
       ∧ d !! "0" = None.
Proof.
  intros df w self.
  apply (add_trail_stance_not_atomic w self "S1 normal walking 1"
           "normal walking" "1" "L" [XStr "12.0--20.0"] 0 "12.0--20.0" df
           (120 # 10) (200 # 10) KeyError); reflexivity.
Defined.

(** ** Reading the recording *)

Lemma id_map_loads self foot sid : loads (id_map self foot sid).2 = [].
Proof. unfold id_map. by repeat case_match. Qed.

Lemma loads_app ev1 ev2 : loads (ev1 ++ ev2) = loads ev1 ++ loads ev2.
Proof. apply omap_app. Qed.

Lemma get_time_sensor_slice_loads self foot t0 t1 s0 s1 :
  loads (get_time_sensor_slice self foot t0 t1 s0 s1).1 = [].
Proof.
  unfold get_time_sensor_slice.
  pose proof (id_map_loads self foot s0) as H0.
  pose proof (id_map_loads self foot s1) as H1.
  destruct (id_map self foot s0), (id_map self foot s1). simpl in *.
  by rewrite loads_app, H0, H1.
Qed.

Lemma foot_setitem_frame self c t f k v self' :
  foot_setitem self c t f k v = inr self' →
  name self' = name self ∧ folder self' = folder self
  ∧ (f ≠ "asc" → ∀ c' t', recording self' c' t' = recording self c' t').
Proof.
  unfold foot_setitem. intros Hset.
  destruct (trails self !! c) as [cm|] eqn:Hc; [|done].
  destruct (cm !! t) as [tm|] eqn:Ht; [|done].
  destruct (tm !! f) as [[?|d]|] eqn:Hf; simplify_eq.
  repeat split. intros Hf' c' t'. unfold recording. simpl.
  destruct (decide (c = c')) as [->|]; [|by rewrite lookup_insert_ne].
  rewrite lookup_insert_eq, Hc.
  destruct (decide (t = t')) as [->|]; [|by rewrite lookup_insert_ne].
  by rewrite lookup_insert_eq, Ht, lookup_insert_ne.
Qed.

(** What a turn of the stance loop leaves alone: the subject's name and
    folder, the recording stored beside the foot, and the files read. *)
Lemma stance_step_frame self a c t f i x :
  let r := stance_step self a c t f i x in
  name r.1 = name self ∧ folder r.1 = folder self
  ∧ (f ≠ "asc" → ∀ c' t', recording r.1 c' t' = recording self c' t')
  ∧ loads r.2 = [].
Proof.
  destruct x as [s| |]; simpl; [|done..].
  unfold stance_try.
  pose proof (get_time_sensor_slice_loads a f) as Hl.
  repeat (case_match; simplify_eq; simpl; try done);
    repeat match goal with
      | H : foot_setitem _ _ _ _ _ _ = inr _ |- _ =>
          apply foot_setitem_frame in H as (? & ? & ?)
      | H : get_time_sensor_slice a f ?q0 ?q1 1 99 = _ |- _ =>
          let H' := fresh in
          pose proof (Hl q0 q1 1 99) as H'; rewrite H in H'; simpl in H';
          clear H
      end;
    rewrite ?loads_app; simpl;
    (split; [congruence|]); (split; [congruence|]);
    (split; [|by rewrite ?app_nil_r]);
    intros Hf c' t';
    repeat match goal with
      | H : f ≠ "asc" → _ |- _ => specialize (H Hf)
      end; congruence.
Qed.

Lemma stance_loop_frame self a c t f i xs :
  let r := stance_loop self a c t f i xs in
  name r.1 = name self ∧ folder r.1 = folder self
  ∧ (f ≠ "asc" → ∀ c' t', recording r.1 c' t' = recording self c' t')
  ∧ loads r.2 = [].
Proof.
  revert self i. induction xs as [|x xs IH]; intros self i; simpl; [done|].
  destruct (stance_step_frame self a c t f i x) as (Hn1 & Hf1 & Hr1 & Hl1).
  destruct (stance_step self a c t f i x) as [self1 ev1].
  destruct (IH self1 (S i)) as (Hn2 & Hf2 & Hr2 & Hl2).
  destruct (stance_loop self1 a c t f (S i) xs) as [self2 ev2]. simpl in *.
  rewrite loads_app, Hl1, Hl2, Hn2, Hn1, Hf2, Hf1. repeat split.
  intros Hf c' t'. by rewrite Hr2, Hr1.
Qed.

(** C5, as the code has it. Every call of [add_trail] reads the recording
    file, once, whatever the subject already holds at that condition and
    time; when the file is read and the foot symbol is not 'asc', the table
    stored under 'asc' afterwards is the one just read, as read: the loop
    over the stances only reads it. *)
Theorem add_trail_reads_recording_every_call (w : world)
    (self : Pedar_Subject) (asc c t foot : string) (stances : list xl_cell) :
  loads (add_trail w self asc c t foot stances).1.2 = [asc_path self asc]
  ∧ (∀ df, read_csv w (asc_path self asc) = Some df → foot ≠ "asc" →
       recording (add_trail w self asc c t foot stances).1.1 c t
       = Some {| path := asc_path self asc; doc := df |}).
Proof.
  unfold add_trail, Pedar_asc_init.
  destruct (read_csv w (asc_path self asc)) as [df|] eqn:Hdf.
  - set (a := {| path := asc_path self asc; doc := df |}).
    match goal with
    | |- context [stance_loop ?s0 a c t foot 0 stances] => set (self0 := s0)
    end.
    destruct (stance_loop_frame self0 a c t foot 0 stances)
      as (_ & _ & Hr & Hl).
    destruct (stance_loop self0 a c t foot 0 stances) as [self1 ev1].
    simpl in *. rewrite Hl. split; [done|].
    intros ? [= <-] Hfoot. rewrite Hr by done.
    subst self0. unfold recording. simpl.
    by rewrite !lookup_insert_eq, lookup_insert_ne, lookup_insert_eq.
  - simpl. split; [done|]. by intros.
Qed.

(** C5, as the specification words it, does not hold: after the left-foot
    row of a recording has been ingested, its table is stored at the
    condition and time, and ingesting the right-foot row of the same
    recording reads the file again. *)
Lemma add_trail_reuse_counterexample :
  ¬ (∀ (w : world) (self : Pedar_Subject) (asc c t foot : string)
       (stances : list xl_cell) (a : Pedar_asc),
       recording self c t = Some a → path a = asc_path self asc →
       loads (add_trail w self asc c t foot stances).1.2 = []).
Proof.
  intros Hreuse.
  set (df := {| index := [10; 20]%Q; columns := [0; 1];
                values := [[Some 1%Q; Some 2%Q]; [Some 3%Q; Some 4%Q]] |}).
  set (w := {| read_csv := λ _, Some df; read_excel := λ _, None |}).
  set (self1 := (add_trail w (Pedar_Subject_init "S1" "subjects")
                   "S1 normal walking 1" "normal walking" "1" "L" []).1.1).
  specialize (Hreuse w self1 "S1 normal walking 1" "normal walking" "1" "R" []
                {| path := "subjects/S1/S1 normal walking 1.asc"; doc := df |}
                eq_refl eq_refl).
  by vm_compute in Hreuse.
Qed.

(** ** Slices of a recording *)

Global Instance Q_label_order : LabelOrder Q.
Proof.
  split; unfold leb, Q_label.
  - intros x y Hxy. apply Qle_bool_iff.
    destruct (Qlt_le_dec y x) as [Hlt|Hle].
    + by apply Qlt_le_weak.
    + apply Qle_bool_iff in Hle. congruence.
  - intros x y z Hxy Hyz. apply Qle_bool_iff.
    apply Qle_bool_iff in Hxy, Hyz. by eapply Qle_trans.
Qed.

Global Instance Z_label_order : LabelOrder Z.
Proof. split; unfold leb, Z_label; intros; lia. Qed.

Lemma filter_none {A} (f : A → bool) (l : list A) :
  Forall (λ y, f y = false) l → List.filter f l = [].
Proof. induction 1 as [|y l Hy _ IH]; simpl; [done|by rewrite Hy]. Qed.

Lemma filter_all {A} (f : A → bool) (l : list A) :
  Forall (λ y, f y = true) l → List.filter f l = l.
Proof. induction 1 as [|y l Hy _ IH]; simpl; [done|by rewrite Hy, IH]. Qed.

Section sorted_axis.
Context {T : Type} `{LabelOrder T}.
Implicit Types (x y lo hi : T) (l : list T).

Lemma ltb_leb x y : ltb x y = true → leb x y = true.
Proof.
  unfold ltb. intros Hlt. apply leb_total. by destruct (leb y x).
Qed.

Lemma monotonic_cons x l :
  is_monotonic_increasing (x :: l) = true →
  is_monotonic_increasing l = true ∧ Forall (λ y, leb x y = true) l.
Proof.
  revert x. induction l as [|y l IH]; intros x Hm; [done|].
  change (leb x y && is_monotonic_increasing (y :: l) = true) in Hm.
  apply andb_prop in Hm as [Hxy Hm]. split; [done|].
  constructor; [done|].
  destruct (IH y Hm) as [_ Hy].
  eapply Forall_impl; [exact Hy|]. intros z Hz. by eapply leb_trans.
Qed.

Lemma prefix_length_none (f : T → bool) l :
  Forall (λ y, f y = false) l → prefix_length f l = O.
Proof. destruct 1 as [|y l Hy _]; simpl; [done|by rewrite Hy]. Qed.

Lemma positions_none x l i :
  Forall (λ y, leb y x = false) l → positions l x i = [].
Proof.
  intros Hall. revert i.
  induction Hall as [|y l Hy _ IH]; intros i; simpl; [done|].
  unfold eqb. by rewrite Hy, IH.
Qed.

Lemma above_all x e l :
  leb e x = false → Forall (λ y, leb e y = true) l →
  Forall (λ y, leb y x = false) l.
Proof.
  intros He Hall. eapply Forall_impl; [exact Hall|]. intros y Hy. simpl in *.
  destruct (leb y x) eqn:Hyx; [|done].
  by rewrite (leb_trans e y x Hy Hyx) in He.
Qed.

Lemma not_below_all x e l :
  leb x e = true → Forall (λ y, leb e y = true) l →
  Forall (λ y, ltb y x = false) l.
Proof.
  intros He Hall. eapply Forall_impl; [exact Hall|]. intros y Hy. simpl in *.
  unfold ltb.
  by rewrite (leb_trans x e y He Hy).
Qed.

Lemma prefix_length_le x l :
  (prefix_length (λ e, ltb e x) l ≤ prefix_length (λ e, leb e x) l)%nat.
Proof.
  induction l as [|e l IH]; simpl; [done|].
  destruct (ltb e x) eqn:Hlt; [|lia].
  rewrite (ltb_leb _ _ Hlt). lia.
Qed.

(** On an increasing axis the positions of a label are the run between
    the two insertion points. *)
Lemma positions_sorted x l i :
  is_monotonic_increasing l = true →
  positions l x i
  = seq (i + prefix_length (λ e, ltb e x) l)
        (prefix_length (λ e, leb e x) l - prefix_length (λ e, ltb e x) l).
Proof.
  revert i. induction l as [|e l IH]; intros i Hm; [done|].
  apply monotonic_cons in Hm as [Hm Hall]. simpl. unfold eqb.
  destruct (leb e x) eqn:Hex.
  - destruct (leb x e) eqn:Hxe; simpl.
    + assert (ltb e x = false) as -> by (unfold ltb; by rewrite Hxe).
      rewrite IH by done.
      rewrite (prefix_length_none (λ e0, ltb e0 x) l)
        by (by eapply not_below_all).
      rewrite !Nat.add_0_r, !Nat.sub_0_r. done.
    + assert (ltb e x = true) as -> by (unfold ltb; by rewrite Hxe).
      rewrite IH by done. f_equal; lia.
  - assert (ltb e x = false) as ->.
    { destruct (ltb e x) eqn:Hlt; [|done]. apply ltb_leb in Hlt. congruence. }
    simpl. apply positions_none. by eapply above_all.
Qed.

Lemma last_seq a k : List.last (seq (S a) k) a = (a + k)%nat.
Proof.
  destruct k as [|k]; [simpl; lia|].
  rewrite seq_S, last_last. lia.
Qed.

Lemma get_slice_bound_sorted x l sd :
  is_monotonic_increasing l = true →
  get_slice_bound l x sd = Some (searchsorted l x sd).
Proof.
  intros Hm. unfold get_slice_bound. rewrite positions_sorted by done.
  pose proof (prefix_length_le x l) as Hle. simpl.
  destruct (_ - _)%nat as [|k] eqn:Hk.
  - simpl. unfold searchsorted_monotonic. by rewrite Hm.
  - cbn [seq]. rewrite last_seq, length_seq.
    replace (_ + k - _)%nat with k by lia. rewrite Nat.eqb_refl.
    destruct sd; simpl; f_equal; lia.
Qed.

(** The positional slice between the two insertion points holds exactly
    the labels within the bounds. *)
Lemma islice_sorted lo hi l :
  is_monotonic_increasing l = true →
  islice (prefix_length (λ e, ltb e lo) l) (prefix_length (λ e, leb e hi) l) l
  = List.filter (λ x, leb lo x && leb x hi) l.
Proof.
  unfold islice. induction l as [|e l IH]; intros Hm; [done|].
  apply monotonic_cons in Hm as [Hm Hall]. specialize (IH Hm). simpl.
  destruct (leb e hi) eqn:Hehi.
  - destruct (leb lo e) eqn:Hloe.
    + assert (ltb e lo = false) as -> by (unfold ltb; by rewrite Hloe).
      simpl. f_equal.
      rewrite (prefix_length_none (λ e0, ltb e0 lo) l) in IH
        by (by eapply not_below_all).
      by rewrite Nat.sub_0_r in IH.
    + assert (ltb e lo = true) as -> by (unfold ltb; by rewrite Hloe).
      simpl. exact IH.
  - rewrite andb_false_r.
    rewrite (filter_none (λ x, leb lo x && leb x hi) l).
    { by destruct (ltb e lo). }
    eapply Forall_impl; [exact (above_all hi e l Hehi Hall)|].
    intros y Hy. simpl in *. by rewrite Hy, andb_false_r.
Qed.

Lemma slice_locs_sorted lo hi l :
  is_monotonic_increasing l = true →
  ∃ i j, slice_locs l (Some lo) (Some hi) = Some (i, j)
         ∧ islice i j l = List.filter (λ x, leb lo x && leb x hi) l.
Proof.
  intros Hm. unfold slice_locs.
  rewrite !get_slice_bound_sorted by done. simpl.
  eexists _, _. split; [done|]. by apply islice_sorted.
Qed.
End sorted_axis.

(** The columns of a full table that a range of channels selects. *)
Lemma filter_seqZ (a n c0 c1 : Z) :
  a ≤ c0 → c1 < a + n →
  List.filter (λ c, leb c0 c && leb c c1) (seqZ a n) = seqZ c0 (c1 - c0 + 1).
Proof.
  intros Ha Hn. unfold leb, Z_label.
  destruct (decide (c1 < c0)) as [Hlt|Hge].
  - rewrite (seqZ_nil c0) by lia. apply filter_none, Forall_forall.
    intros x _. lia.
  - assert (seqZ a n
            = seqZ a (c0 - a) ++ seqZ c0 (c1 - c0 + 1)
                ++ seqZ (c1 + 1) (a + n - c1 - 1)) as ->.
    { replace n with ((c0 - a) + ((c1 - c0 + 1) + (a + n - c1 - 1))) at 1
        by lia.
      rewrite seqZ_app by lia. rewrite seqZ_app by lia.
      replace (a + (c0 - a)) with c0 by lia.
      by replace (c0 + (c1 - c0 + 1)) with (c1 + 1) by lia. }
    rewrite !List.filter_app.
    rewrite filter_none, filter_all, filter_none; [by rewrite app_nil_r|..];
      apply Forall_forall; intros x Hx%elem_of_seqZ; lia.
Qed.

(** C7. For a recognised foot and sensor ids between 1 and 99, on a table
    whose times ascend and whose columns are named 0..198, the slice is
    returned without a message; its times are exactly the times of the table
    within [t0, t1], both ends included, and its columns are exactly the
    channels from that of [s0] to that of [s1], both ends included. *)
Theorem get_time_sensor_slice_inclusive (self : Pedar_asc) (foot : string)
    (t0 t1 : Q) (s0 s1 : Z) :
  foot ∈ ["L"; "l"; "R"; "r"] →
  is_monotonic_increasing (index (doc self)) = true →
  columns (doc self) = seqZ 0 199 →
  1 ≤ s0 ≤ 99 → 1 ≤ s1 ≤ 99 →
  ∃ c0 c1 r,
    id_map self foot s0 = (Some c0, [])
    ∧ id_map self foot s1 = (Some c1, [])
    ∧ get_time_sensor_slice self foot t0 t1 s0 s1 = ([], inr r)
    ∧ index r
      = List.filter (λ t, Qle_bool t0 t && Qle_bool t t1) (index (doc self))
    ∧ columns r = seqZ c0 (c1 - c0 + 1).
Proof.
  intros Hfoot Hidx Hcols Hs0 Hs1.
  assert (∃ k, (k = -1 ∨ k = 98)
               ∧ ∀ s, id_map self foot s = (Some (s + k), [])) as (k & Hk & Hid).
  { set_unfold.
    destruct Hfoot as [-> | [-> | [-> | [-> | []]]]];
      [exists (-1)|exists (-1)|exists 98|exists 98]; (split; [lia|done]). }
  exists (s0 + k), (s1 + k).
  unfold get_time_sensor_slice, loc. rewrite !Hid.
  destruct (slice_locs_sorted t0 t1 (index (doc self)) Hidx)
    as (i0 & i1 & -> & Hrows).
  assert (is_monotonic_increasing (columns (doc self)) = true) as Hmono
    by (by rewrite Hcols).
  destruct (slice_locs_sorted (s0 + k) (s1 + k) (columns (doc self)) Hmono)
    as (j0 & j1 & -> & Hsel).
  eexists. repeat split; simpl.
  - exact Hrows.
  - rewrite Hsel, Hcols. apply filter_seqZ; lia.
Qed.

Lemma get_time_sensor_slice_inclusive_witness :
  let self := {| path := "subjects/S1/S1 normal walking 1.asc";
                 doc := {| index := [5; 10; 15; 20; 25]%Q;
                           columns := seqZ 0 199; values := [] |} |} in
  ∃ c0 c1 r,
    id_map self "L" 1 = (Some c0, [])
    ∧ id_map self "L" 99 = (Some c1, [])
    ∧ get_time_sensor_slice self "L" 10 20 1 99 = ([], inr r)
    ∧ index r
      = List.filter (λ t, Qle_bool 10 t && Qle_bool t 20) (index (doc self))
    ∧ columns r = seqZ c0 (c1 - c0 + 1).
Proof.
  intros self.
  apply (get_time_sensor_slice_inclusive self "L" 10 20 1 99);
    [set_solver|reflexivity|reflexivity|lia|lia].
Defined.

(** ** The arithmetic of heat maps *)

Import FootHeatmap.

Section store.
Context {F : Type}.
Implicit Types (h : list (object F)) (a b : list (list F)).

Lemma preserved_refl h : preserved h h.
Proof. by intros p o. Qed.

Lemma preserved_trans h1 h2 h3 :
  preserved h1 h2 → preserved h2 h3 → preserved h1 h3.
Proof. intros H12 H23 p o Hp. by apply H23, H12. Qed.

Lemma preserved_length h h' : preserved h h' → (length h ≤ length h')%nat.
Proof.
  intros Hp. destruct (decide (length h = O)) as [->|Hn]; [lia|].
  destruct (lookup_lt_is_Some_2 h (pred (length h))) as [o Ho]; [lia|].
  apply Hp, lookup_lt_Some in Ho. lia.
Qed.

Lemma preserved_alloc h o : preserved h (alloc h o).1.
Proof. intros p o' Hp. simpl. by apply lookup_app_l_Some. Qed.

Lemma preserved_insert h h' t o :
  preserved h h' → (length h ≤ t)%nat → preserved h (<[t := o]> h').
Proof.
  intros Hp Ht p o' Ho. rewrite list_lookup_insert_ne; [by apply Hp|].
  apply lookup_lt_Some in Ho. lia.
Qed.

Lemma fresh_heatmap_mono h0 h h' new :
  (length h0 ≤ length h)%nat → fresh_heatmap h h' new →
  fresh_heatmap h0 h' new.
Proof.
  intros Hle (Hn & l & r & a & b & ? & ? & ? & ? & ?).
  split; [lia|]. exists l, r, a, b. repeat split; (done || lia).
Qed.

Lemma grids_preserved h h' p a b :
  preserved h h' → grids h p = Some (a, b) → grids h' p = Some (a, b).
Proof.
  unfold grids. intros Hp Hg.
  destruct (h !! p) as [[?|l r]|] eqn:Hhp; [done| |done].
  destruct (h !! l) as [[a'|]|] eqn:Hl; [|done..].
  destruct (h !! r) as [[b'|]|] eqn:Hr; [|done..].
  by rewrite (Hp _ _ Hhp), (Hp _ _ Hl), (Hp _ _ Hr).
Qed.

(** [deepcopy]: the copy is a new heat map on new arrays with the same
    contents; nothing that was there is touched. *)
Lemma deepcopy_ok h self a b :
  grids h self = Some (a, b) →
  ∃ h1 new l' r',
    deepcopy h self = (h1, inr new)
    ∧ preserved h h1 ∧ (length h ≤ new)%nat
    ∧ h1 !! new = Some (Heatmap l' r')
    ∧ (length h ≤ l')%nat ∧ (length h ≤ r')%nat
    ∧ h1 !! l' = Some (Ndarray a) ∧ h1 !! r' = Some (Ndarray b).
Proof.
  unfold grids, deepcopy. intros Hg.
  destruct (h !! self) as [[?|l r]|] eqn:Hself; [done| |done].
  destruct (h !! l) as [[a'|]|] eqn:Hl; [|done..].
  destruct (h !! r) as [[b'|]|] eqn:Hr; [|done..].
  simplify_eq. unfold alloc.
  destruct (l =? r)%nat eqn:Hlr.
  - apply Nat.eqb_eq in Hlr as ->. simplify_eq.
    eexists _, _, _, _. split; [done|].
    repeat split.
    + intros p o Hp. by do 2 apply lookup_app_l_Some.
    + rewrite length_app. simpl. lia.
    + rewrite lookup_app_r by done. rewrite Nat.sub_diag. done.
    + lia.
    + lia.
    + rewrite lookup_app_l by (rewrite length_app; simpl; lia).
      by rewrite lookup_app_r, Nat.sub_diag.
    + rewrite lookup_app_l by (rewrite length_app; simpl; lia).
      by rewrite lookup_app_r, Nat.sub_diag.
  - eexists _, _, _, _. split; [done|].
    repeat split.
    + intros p o Hp. by do 3 apply lookup_app_l_Some.
    + rewrite !length_app. simpl. lia.
    + rewrite lookup_app_r by done. rewrite Nat.sub_diag. done.
    + lia.
    + rewrite length_app. simpl. lia.
    + rewrite lookup_app_l by (rewrite !length_app; simpl; lia).
      rewrite lookup_app_l by (rewrite !length_app; simpl; lia).
      by rewrite lookup_app_r, Nat.sub_diag.
    + rewrite lookup_app_l by (rewrite !length_app; simpl; lia).
      by rewrite lookup_app_r, Nat.sub_diag.
Qed.

Lemma deepcopy_preserved h self : preserved h (deepcopy h self).1.
Proof.
  unfold deepcopy, alloc.
  repeat case_match; simplify_eq; simpl; try apply preserved_refl;
    intros p o Hp; repeat apply lookup_app_l_Some; done.
Qed.

Lemma deepcopy_fresh h self h1 new :
  deepcopy h self = (h1, inr new) → fresh_heatmap h h1 new.
Proof.
  intros Hd.
  assert (∃ a b, grids h self = Some (a, b)) as (a & b & Hg).
  { unfold deepcopy, grids in *. repeat case_match; simplify_eq; eauto. }
  destruct (deepcopy_ok h self a b Hg)
    as (h1' & new' & l' & r' & Hd' & _ & ? & ? & ? & ? & ? & ?).
  rewrite Hd in Hd'. simplify_eq. split; [done|].
  by exists l', r', a, b.
Qed.

Lemma inplace_inv (op : F → F → F) h t src h' :
  inplace op h t src = inr h' →
  ∃ a b b', h !! t = Some (Ndarray a) ∧ h !! src = Some (Ndarray b)
            ∧ broadcast_to (shape a) b = Some b'
            ∧ h' = <[t := Ndarray (zip_with (zip_with op) a b')]> h.
Proof.
  unfold inplace. intros Hi. repeat case_match; simplify_eq. eauto 10.
Qed.

Lemma inplace_scalar_inv (op : F → F → F) h t val h' :
  inplace_scalar op h t val = inr h' →
  ∃ a, h !! t = Some (Ndarray a)
       ∧ h' = <[t := Ndarray (map (map (λ x, op x val)) a)]> h.
Proof.
  unfold inplace_scalar. intros Hi. repeat case_match; simplify_eq. eauto.
Qed.

(** Writing an array over an array keeps every heat map where it is and
    every array an array. *)
Lemma insert_array_heatmap h t x a p l r :
  h !! t = Some (Ndarray a) → h !! p = Some (Heatmap l r) →
  <[t := Ndarray x]> h !! p = Some (Heatmap l r).
Proof.
  intros Ht Hp. rewrite list_lookup_insert_ne; [done|]. congruence.
Qed.

Lemma insert_array_array h t x a p b :
  h !! t = Some (Ndarray a) → h !! p = Some (Ndarray b) →
  ∃ b', <[t := Ndarray x]> h !! p = Some (Ndarray b').
Proof.
  intros Ht Hp. destruct (decide (t = p)) as [->|Hne].
  - rewrite list_lookup_insert_eq by (by eapply lookup_lt_Some). eauto.
  - rewrite list_lookup_insert_ne by done. eauto.
Qed.

Lemma fresh_heatmap_insert h0 h t x a new :
  h !! t = Some (Ndarray a) →
  fresh_heatmap h0 h new → fresh_heatmap h0 (<[t := Ndarray x]> h) new.
Proof.
  intros Ht (Hn & l & r & al & bl & Hnew & Hl & Hr & Hal & Hbl).
  split; [done|].
  destruct (insert_array_array h t x a l al Ht Hal) as [al' Hal'].
  destruct (insert_array_array h t x a r bl Ht Hbl) as [bl' Hbl'].
  exists l, r, al', bl'. repeat split; try done.
  by eapply insert_array_heatmap.
Qed.

Lemma binary_frame (op : F → F → F) h self other :
  preserved h (binary op h self other).1
  ∧ ∀ new, (binary op h self other).2 = inr new →
           fresh_heatmap h (binary op h self other).1 new.
Proof.
  unfold binary.
  pose proof (deepcopy_preserved h self) as Hp1.
  destruct (deepcopy h self) as [h1 [e|new]] eqn:Hd; simpl in Hp1; [done|].
  pose proof (deepcopy_fresh h self h1 new Hd) as Hfresh.
  destruct Hfresh as (Hn & l & r & a & b & Hnew & Hl & Hr & Ha & Hb).
  rewrite Hnew.
  destruct (h1 !! other) as [[?|ol or]|]; [done| |done].
  destruct (inplace op h1 l ol) as [e|h2] eqn:H2; [done|].
  apply inplace_inv in H2 as (a1 & b1 & b1' & Ha1 & _ & _ & ->).
  assert (preserved h (<[l := Ndarray (zip_with (zip_with op) a1 b1')]> h1))
    as Hp2 by (by apply preserved_insert).
  assert (fresh_heatmap h
            (<[l := Ndarray (zip_with (zip_with op) a1 b1')]> h1) new)
    as Hf2.
  { eapply fresh_heatmap_insert; [done|].
    split; [done|]. by exists l, r, a, b. }
  destruct (inplace op _ r or) as [e|h3] eqn:H3; [done|].
  apply inplace_inv in H3 as (a2 & b2 & b2' & Ha2 & _ & _ & ->).
  simpl. split.
  - apply preserved_insert; done.
  - intros ? [= <-]. by eapply fresh_heatmap_insert.
Qed.

Lemma scalar_frame (op : F → F → F) h self val :
  preserved h (scalar op h self val).1
  ∧ ∀ new, (scalar op h self val).2 = inr new →
           fresh_heatmap h (scalar op h self val).1 new.
Proof.
  unfold scalar.
  pose proof (deepcopy_preserved h self) as Hp1.
  destruct (deepcopy h self) as [h1 [e|new]] eqn:Hd; simpl in Hp1; [done|].
  pose proof (deepcopy_fresh h self h1 new Hd) as Hfresh.
  destruct Hfresh as (Hn & l & r & a & b & Hnew & Hl & Hr & Ha & Hb).
  rewrite Hnew.
  destruct (inplace_scalar op h1 l val) as [e|h2] eqn:H2; [done|].
  apply inplace_scalar_inv in H2 as (a1 & Ha1 & ->).
  assert (preserved h (<[l := Ndarray (map (map (λ x, op x val)) a1)]> h1))
    as Hp2 by (by apply preserved_insert).
  assert (fresh_heatmap h
            (<[l := Ndarray (map (map (λ x, op x val)) a1)]> h1) new)
    as Hf2.
  { eapply fresh_heatmap_insert; [done|].
    split; [done|]. by exists l, r, a, b. }
  destruct (inplace_scalar op _ r val) as [e|h3] eqn:H3; [done|].
  apply inplace_scalar_inv in H3 as (a2 & Ha2 & ->).
  simpl. split.
  - apply preserved_insert; done.
  - intros ? [= <-]. by eapply fresh_heatmap_insert.
Qed.

Context `{Scalar F}.

Lemma sum_frame h start items :
  preserved h (sum h start items).1
  ∧ ∀ res, (sum h start items).2 = inr res →
           (res = start ∧ (sum h start items).1 = h)
           ∨ fresh_heatmap h (sum h start items).1 res.
Proof.
  revert h start. induction items as [|x items IH]; intros h start; simpl.
  - split; [apply preserved_refl|]. intros ? [= <-]. by left.
  - destruct (binary_frame add h start x) as [Hp1 Hf1].
    unfold __add__.
    destruct (binary add h start x) as [h1 [e|acc]]; simpl in *; [done|].
    destruct (IH h1 acc) as [Hp2 Hf2]. split.
    + by eapply preserved_trans.
    + intros res Hres. right.
      destruct (Hf2 res Hres) as [[-> ->]|Hfresh]; [by apply Hf1|].
      eapply fresh_heatmap_mono; [|done]. by apply preserved_length.
Qed.

Lemma average_frame h hms :
  preserved h (average h hms).1
  ∧ ∀ new, (average h hms).2 = inr new →
           fresh_heatmap h (average h hms).1 new.
Proof.
  unfold average. destruct hms as [|first rest]; [by split; [apply preserved_refl|]|].
  destruct (sum_frame h first rest) as [Hp1 _].
  destruct (sum h first rest) as [h1 [e|total]]; simpl in *; [done|].
  destruct (scalar_frame div h1 total (of_nat (S (length rest))))
    as [Hp2 Hf2].
  unfold __truediv__. split.
  - by eapply preserved_trans.
  - intros new Hnew. eapply fresh_heatmap_mono; [|by apply Hf2].
    by apply preserved_length.
Qed.

(** C9. Whatever the operands and whatever the outcome, an addition, a
    subtraction, a multiplication or division by a number, or an average
    leaves every object that the store held as it was, the grids of the
    operands among them; and what it returns is a heat map that the store
    did not hold, on two grids that the store did not hold. *)
Theorem arithmetic_leaves_operands (h : list (object F)) (op : operation F) :
  (∀ p o, h !! p = Some o → (run h op).1 !! p = Some o)
  ∧ ∀ new, (run h op).2 = inr new → fresh_heatmap h (run h op).1 new.
Proof.
  destruct op; simpl;
    [apply binary_frame|apply binary_frame|apply scalar_frame
    |apply scalar_frame|apply average_frame].
Qed.
End store.

Section shapes.
Context {F : Type}.
Implicit Types (h : list (object F)) (a b : list (list F)).

Lemma expand_length {A} (n : nat) (l l' : list A) :
  expand n l = Some l' → length l' = n.
Proof.
  unfold expand. destruct (length l =? n)%nat eqn:Hn.
  - intros [= <-]. by apply Nat.eqb_eq.
  - destruct l as [|x [|??]]; intros [= <-]. apply length_replicate.
Qed.

Lemma expand_Forall {A} (P : A → Prop) (n : nat) (l l' : list A) :
  expand n l = Some l' → Forall P l → Forall P l'.
Proof.
  unfold expand. destruct (length l =? n)%nat.
  - by intros [= <-].
  - destruct l as [|x [|??]]; intros [= <-] Hl.
    apply Forall_replicate. by inversion Hl.
Qed.

Lemma broadcast_to_shape (sh : nat * nat) b b' :
  broadcast_to sh b = Some b' →
  length b' = sh.1 ∧ Forall (λ r, length r = sh.2) b'.
Proof.
  unfold broadcast_to.
  destruct (mapM (expand sh.2) b) as [rows|] eqn:Hrows; [|done].
  assert (Forall (λ r, length r = sh.2) rows) as Hall.
  { apply mapM_Some in Hrows.
    induction Hrows as [|r r' ?? Hr _ IH]; constructor; [|done].
    by eapply expand_length. }
  intros Hb. split; [by eapply expand_length|].
  by eapply expand_Forall.
Qed.

Lemma zip_with_shape (op : F → F → F) a b' :
  length b' = (shape a).1 → Forall (λ r, length r = (shape a).2) b' →
  shape (zip_with (zip_with op) a b') = shape a.
Proof.
  unfold shape. destruct a as [|r a], b' as [|r' b']; simpl; try done.
  intros [= Hlen] Hall. inversion Hall as [|?? Hr' _]; subst.
  rewrite !length_zip_with. f_equal; lia.
Qed.

(** [binary] with operands that are heat maps: it succeeds exactly when
    both grids of [other] broadcast onto those of [self], and the result
    has the shapes of [self]; otherwise it is a [ValueError]. *)
Lemma binary_result (op : F → F → F) h self other a b a' b' :
  grids h self = Some (a, b) → grids h other = Some (a', b') →
  match broadcast_to (shape a) a', broadcast_to (shape b) b' with
  | Some _, Some _ =>
      ∃ h' new x y, binary op h self other = (h', inr new)
                    ∧ preserved h h' ∧ grids h' new = Some (x, y)
                    ∧ shape x = shape a ∧ shape y = shape b
  | _, _ => ∃ h', binary op h self other = (h', inl ValueError)
  end.
Proof.
  intros Hself Hother. unfold binary.
  destruct (deepcopy_ok h self a b Hself)
    as (h1 & new & l & r & -> & Hp1 & Hn & Hnew & Hl & Hr & Ha & Hb).
  rewrite Hnew.
  pose proof (grids_preserved h h1 other a' b' Hp1 Hother) as Hother1.
  unfold grids in Hother, Hother1.
  destruct (h !! other) as [[?|ol or]|] eqn:Ho; [done| |done].
  rewrite (Hp1 _ _ Ho) in Hother1 |- *.
  destruct (h !! ol) as [[?|]|] eqn:Hol; [|done..].
  destruct (h !! or) as [[?|]|] eqn:Hor; [|done..].
  simplify_eq.
  pose proof (Hp1 _ _ Hol) as Hol1. pose proof (Hp1 _ _ Hor) as Hor1.
  apply lookup_lt_Some in Hol, Hor.
  assert (inplace op h1 l ol
          = match broadcast_to (shape a) a' with
            | Some a'' =>
                inr (<[l := Ndarray (zip_with (zip_with op) a a'')]> h1)
            | None => inl ValueError
            end) as ->
    by (unfold inplace; by rewrite Ha, Hol1).
  destruct (broadcast_to (shape a) a') as [a''|] eqn:Hba.
  2: { destruct (broadcast_to (shape b) b'); eauto. }
  apply broadcast_to_shape in Hba as [Hlen Hw].
  pose proof (zip_with_shape op a a'' Hlen Hw) as Hsa.
  set (x := zip_with (zip_with op) a a'') in *.
  assert (∃ b0, <[l := Ndarray x]> h1 !! r = Some (Ndarray b0)
                ∧ shape b0 = shape b) as (b0 & Hb0 & Hsb0).
  { destruct (decide (l = r)) as [->|Hne].
    - exists x. rewrite list_lookup_insert_eq by (by eapply lookup_lt_Some).
      split; [done|]. congruence.
    - exists b. by rewrite list_lookup_insert_ne. }
  assert (inplace op (<[l := Ndarray x]> h1) r or
          = match broadcast_to (shape b) b' with
            | Some b'' =>
                inr (<[r := Ndarray (zip_with (zip_with op) b0 b'')]>
                       (<[l := Ndarray x]> h1))
            | None => inl ValueError
            end) as ->.
  { unfold inplace. rewrite Hb0.
    rewrite list_lookup_insert_ne by lia. by rewrite Hor1, Hsb0. }
  destruct (broadcast_to (shape b) b') as [b''|] eqn:Hbb; [|eauto].
  apply broadcast_to_shape in Hbb as [Hlenb Hwb].
  rewrite <- Hsb0 in Hlenb, Hwb.
  pose proof (zip_with_shape op b0 b'' Hlenb Hwb) as Hsb.
  set (y := zip_with (zip_with op) b0 b'') in *.
  assert (new ≠ l ∧ new ≠ r) as [Hnl Hnr] by (split; congruence).
  assert (l < length h1 ∧ r < length h1)%nat as [Hll Hrl]
    by (split; by eapply lookup_lt_Some).
  destruct (decide (l = r)) as [->|Hne].
  - exists (<[r := Ndarray y]> (<[r := Ndarray x]> h1)), new, y, y.
    repeat split; try congruence.
    + apply preserved_insert; [by apply preserved_insert|done].
    + unfold grids. rewrite !list_lookup_insert_ne by done. rewrite Hnew.
      by rewrite list_lookup_insert_eq by (by rewrite length_insert).
  - exists (<[r := Ndarray y]> (<[l := Ndarray x]> h1)), new, x, y.
    repeat split; try congruence.
    + apply preserved_insert; [by apply preserved_insert|done].
    + unfold grids. rewrite !list_lookup_insert_ne by done. rewrite Hnew.
      rewrite list_lookup_insert_ne by done.
      rewrite list_lookup_insert_eq by done.
      by rewrite list_lookup_insert_eq by (by rewrite length_insert).
Qed.

Context `{Scalar F}.

Lemma sum_mismatch h start items a b :
  grids h start = Some (a, b) →
  Forall (λ p, is_Some (grids h p)) items →
  Exists (λ p, ∃ a' b', grids h p = Some (a', b')
                        ∧ (broadcast_to (shape a) a' = None
                           ∨ broadcast_to (shape b) b' = None)) items →
  ∃ h', sum h start items = (h', inl ValueError).
Proof.
  intros Hstart Hvalid Hbad. revert h start a b Hstart Hvalid Hbad.
  induction items as [|p items IH]; intros h start a b Hstart Hvalid Hbad.
  { by inversion Hbad. }
  apply Forall_cons in Hvalid as [[[a' b'] Hp] Hvalid]. simpl.
  pose proof (binary_result add h start p a b a' b' Hstart Hp) as Hres.
  unfold __add__.
  destruct (broadcast_to (shape a) a') as [a''|] eqn:Ha.
  2: { destruct Hres as [h' ->]. eauto. }
  destruct (broadcast_to (shape b) b') as [b''|] eqn:Hb.
  2: { destruct Hres as [h' ->]. eauto. }
  destruct Hres as (h' & new & x & y & -> & Hpres & Hnew & Hx & Hy).
  apply (IH h' new x y Hnew).
  - eapply Forall_impl; [exact Hvalid|]. intros q [[c d] Hq].
    exists (c, d). by eapply grids_preserved.
  - apply Exists_cons in Hbad as [(c & d & Hc & Hcd)|Hbad].
    + rewrite Hp in Hc. simplify_eq. destruct Hcd; congruence.
    + eapply Exists_impl; [exact Hbad|].
      intros q (c & d & Hq & Hcd). exists c, d. rewrite Hx, Hy.
      split; [by eapply grids_preserved|done].
Qed.

(** C8, as the code has it. The average of no heat map fails, on [hms[0]].
    The average of heat maps fails, in the addition, when a grid of some
    later argument does not broadcast onto the grid of the first: along
    some axis its extent is neither that of the first nor 1. *)
Theorem average_fails (h : list (object F)) :
  average h [] = (h, inl IndexError)
  ∧ ∀ first rest a b,
      grids h first = Some (a, b) →
      Forall (λ p, is_Some (grids h p)) rest →
      Exists (λ p, ∃ a' b', grids h p = Some (a', b')
                            ∧ (broadcast_to (shape a) a' = None
                               ∨ broadcast_to (shape b) b' = None)) rest →
      ∃ h', average h (first :: rest) = (h', inl ValueError).
Proof.
  split; [done|]. intros first rest a b Hfirst Hvalid Hbad.
  destruct (sum_mismatch h first rest a b Hfirst Hvalid Hbad) as [h' Hsum].
  unfold average. rewrite Hsum. eauto.
Qed.
End shapes.

(** C8, as the specification words it, does not hold: a heat map on grids of
    two rows and one on grids of a single row differ in shape, and their
    average is returned all the same, the single row being repeated. *)
Lemma average_shape_counterexample :
  ¬ (∀ (h : list (object Q)) (p q : nat) (a b a' b' : list (list Q)),
       grids h p = Some (a, b) → grids h q = Some (a', b') →
       shape a' ≠ shape a →
       ∃ h' e, average h [p; q] = (h', inl e)).
Proof.
  intros Hfail.
  destruct (Hfail
              [Ndarray [[1; 2]; [3; 4]]%Q; Ndarray [[5; 6]; [7; 8]]%Q;
               Heatmap 0 1;
               Ndarray [[10; 20]]%Q; Ndarray [[30; 40]]%Q; Heatmap 3 4]
              2%nat 5%nat _ _ _ _ eq_refl eq_refl ltac:(done))
    as (h' & e & He).
  vm_compute in He. discriminate.
Qed.

(** ** Painting a distribution *)

(** A channel up to 99 is painted on the left grid, whatever the mask and
    the series: the right grid is as it was. *)
Lemma fill_step_left_branch {F} (cls : mask_index) (s : list (Z * F))
    (lr lr' : list (list F) * list (list F)) (n : Z) :
  n ≤ 99 → fill_step cls s lr n = inr lr' → lr'.2 = lr.2.
Proof.
  intros Hn. unfold fill_step.
  destruct (series_get s n); [|done].
  destruct (n <=? 99) eqn:Hle; [|lia].
  repeat case_match; by intros [= <-].
Qed.

Lemma mask_index_of_channels (img : list (list Z)) :
  l_index (load_foot_mask img) !! 0 = Some (where_eq img 1)
  ∧ l_index (load_foot_mask img) !! 99 = Some (where_eq img 100)
  ∧ r_index (load_foot_mask img) !! 99 = Some (where_eq (mirror img) 1).
Proof. repeat split; vm_compute; reflexivity. Qed.

(** C2, at the input where the code departs from it. On a mask whose pixel
    (0, 0) has the value 1 and whose pixel (1, 1) has the value 100, the index
    of the right foot holds pixel (0, 1) of the mirrored mask, of value 1,
    for channel 99; yet a series with the value 7 on channel 99 alone paints
    pixel (1, 1) of the left grid, of mask value 100, and no pixel of the
    right grid. Channel 0 does paint the left pixel of mask value 1. *)
Theorem fill_channel_99_paints_left_grid :
  let cls := load_foot_mask [[1; 0]; [0; 100]] in
  r_index cls !! 99 = Some [(0, 1)%nat]
  ∧ fill_foot_heat_map cls {[ "sensor_peak" := [(99, 7%Q)] ]} "sensor_peak"
    = inr ([[0; 0]; [0; 7]]%Q, [[0; 0]; [0; 0]]%Q)
  ∧ fill_foot_heat_map cls {[ "sensor_peak" := [(0, 7%Q)] ]} "sensor_peak"
    = inr ([[7; 0]; [0; 0]]%Q, [[0; 0]; [0; 0]]%Q).
Proof. repeat split; vm_compute; reflexivity. Qed.
